(** * electron-ipc: typed IPC contracts between Electron's main and renderer

    A shallow embedding of [src/actions.ts] and [src/createIpcApi.ts].

    JavaScript closures become Rocq functions, the object [expose] becomes a
    finite map, the objects [api] become their own properties and their
    prototype under JavaScript's assignment, the declared API tables live in
    a heap and are read through their references, and every effect (a
    transport call, a registration, an exception) is threaded through a
    state-and-exception monad.  Electron itself (ipcMain, ipcRenderer,
    webContents, contextBridge) is not part of the repository: it is modelled
    as a host that records every primitive call, keeps the registered
    listeners, and delivers messages to them. *)

From stdpp Require Import base strings list gmap pretty.

(** ** JavaScript values *)

(** A promise is represented by its eventual settlement. *)
Inductive settlement (V : Type) : Type :=
| Pending
| Fulfilled (v : V)
| Rejected (e : V).
Arguments Pending {V}.
Arguments Fulfilled {V} v.
Arguments Rejected {V} e.

#[local] Set Warnings "-register-all".
Inductive value : Type :=
| VUndefined
| VNull
| VNum (n : Z)
| VStr (s : string)
| VObj (fields : list (string * value))
| VError (name : string)
| VPromise (p : settlement value).
#[local] Set Warnings "register-all".

Definition TypeError : value := VError "TypeError".

(** What awaiting a value yields: a promise is unwrapped, anything else is
    already settled. *)
Definition await (v : value) : settlement value :=
  match v with
  | VPromise p => p
  | _ => Fulfilled v
  end.

(** ** types.ts: action descriptors and API tables *)

(** [IpcOneWayAction<P> | IpcTwoWayAction<A, R>], a union tagged by [type]. *)
Inductive IpcAction : Type :=
| IpcTwoWayAction (arg result : value)
| IpcOneWayAction (arg : value).

(** The [type] field. *)
Definition type (d : IpcAction) : string :=
  match d with
  | IpcTwoWayAction _ _ => "twoWay"
  | IpcOneWayAction _ => "oneWay"
  end.

(** The [arg] field. *)
Definition arg (d : IpcAction) : value :=
  match d with
  | IpcTwoWayAction a _ => a
  | IpcOneWayAction a => a
  end.

(** The [result] field, present on two-way descriptors only. *)
Definition result (d : IpcAction) : option value :=
  match d with
  | IpcTwoWayAction _ r => Some r
  | IpcOneWayAction _ => None
  end.

(** ** actions.ts *)

Definition twoWayAction (_ : unit) : IpcAction :=
  IpcTwoWayAction VNull VNull.

Definition oneWayAction (_ : unit) : IpcAction :=
  IpcOneWayAction VNull.

(** An API table, [Record<string, IpcAction>]: the own properties of the
    object in the order [Object.keys] enumerates them. *)
Definition table : Type := list (string * IpcAction).

Definition Object_keys (t : table) : list string := t.*1.

(** Property read [t[key]]. *)
Definition get (t : table) (key : string) : option IpcAction :=
  (list_to_map t : gmap string IpcAction) !! key.

(** What the surfaces can see of a table: its keys and their tags. *)
Definition tags (t : table) : list (string * string) :=
  (λ p, (p.1, type p.2)) <$> t.

(** ** Completions and the state-and-exception monad *)

Inductive completion (A : Type) : Type :=
| Normal (a : A)
| Throw (e : value).
Arguments Normal {A} a.
Arguments Throw {A} e.

Definition ST (S A : Type) : Type := S → completion A * S.

Definition ret {S A} (a : A) : ST S A := λ s, (Normal a, s).

Definition throw {S A} (e : value) : ST S A := λ s, (Throw e, s).

Definition bind {S A B} (m : ST S A) (k : A → ST S B) : ST S B :=
  λ s, match m s with
       | (Normal a, s') => k a s'
       | (Throw e, s') => (Throw e, s')
       end.

Notation "x <- m ;; k" := (bind m (λ x, k))
  (at level 100, m at next level, right associativity).

Definition gets {S A} (f : S → A) : ST S A := λ s, (Normal (f s), s).

Definition modify {S} (f : S → S) : ST S unit := λ s, (Normal tt, f s).

(** [for (const key of keys) body(key)]: a throwing iteration ends the loop. *)
Fixpoint for_of {S} (keys : list string) (body : string → ST S unit)
  : ST S unit :=
  match keys with
  | [] => ret tt
  | key :: rest => _ <- body key ;; for_of rest body
  end.

(** The same loop around a local variable the body reassigns. *)
Fixpoint for_of_var {S X} (keys : list string) (x : X)
    (body : X → string → ST S X) : ST S X :=
  match keys with
  | [] => ret x
  | key :: rest => x' <- body x key ;; for_of_var rest x' body
  end.

(** Run a computation on a component of the state. *)
Definition zoom {S T A} (proj : T → S) (upd : S → T → T) (m : ST S A)
  : ST T A :=
  λ t, let '(r, s') := m (proj t) in (r, upd s' t).

(** ** Objects built by assignment

    [main.toRenderer] and [renderer.toMain] start from [const api = {}] and
    run [api[key] = fn] for every key of a table.  The module is strict
    code, and [Object.prototype] is the one the language defines: all its
    properties are writable methods, except [__proto__], whose setter
    replaces the prototype of the object assigned to. *)

Record JsObject (F : Type) : Type := {
  (** the own properties *)
  own : gmap string F;
  (** the function an assignment to [__proto__] made the prototype;
      [None] while the prototype is [Object.prototype] *)
  proto : option F;
}.
Arguments own {F} _.
Arguments proto {F} _.

(** The object literal [{}]. *)
#[global] Instance JsObject_empty {F} : Empty (JsObject F) :=
  {| own := ∅; proto := None |}.

(** What an object inherits from a function and cannot be assigned:
    [name] and [length] are read-only properties of every function, and
    the setters of [arguments] and [caller] on [Function.prototype]
    throw. *)
Definition read_only_of_functions : list string :=
  ["name"; "length"; "arguments"; "caller"].

(** [o[key] = f] for a function [f].  An own property is overwritten;
    [__proto__] reaches the setter of [Object.prototype] and gives the
    object [f] for its prototype, without a property of its own; under a
    function for prototype the names above throw; any other assignment
    creates the own property. *)
Definition assign {F} (o : JsObject F) (key : string) (f : F)
  : completion (JsObject F) :=
  match own o !! key with
  | Some _ => Normal {| own := <[key := f]> (own o); proto := proto o |}
  | None =>
      if decide (key = "__proto__") then
        Normal {| own := own o; proto := Some f |}
      else
        match proto o with
        | Some _ =>
            if decide (key ∈ read_only_of_functions) then Throw TypeError
            else Normal {| own := <[key := f]> (own o); proto := proto o |}
        | None => Normal {| own := <[key := f]> (own o); proto := proto o |}
        end
  end.

(** The assignment as a statement. *)
Definition assign_to {S F} (o : JsObject F) (key : string) (f : F)
  : ST S (JsObject F) :=
  λ s, (assign o key f, s).

(** The property read [o[key]] as far as it yields one of the functions
    assigned to the object: an own property, or under [__proto__] the
    function that became the prototype. *)
#[global] Instance JsObject_lookup {F} : Lookup string F (JsObject F) :=
  λ key o,
    match own o !! key with
    | Some f => Some f
    | None => if decide (key = "__proto__") then proto o else None
    end.

(** ** The host: Electron's processes and transport

    One main process and any number of renderer processes, each renderer
    identified by the window it belongs to.  Application code (handlers and
    callbacks) runs on an application state of an arbitrary type [App].
    The transport itself comes from the [electron] package, which
    [types.ts] imports; its primitives follow the boundary operations the
    specification lists for the host environment. *)

(** A renderer process, equally its [BrowserWindow] on the main side. *)
Definition wid : Type := nat.

(** The event metadata the transport passes to a listener. *)
Record IpcEvent : Type := { sender : wid }.

(** The transport primitives of the host's IPC interface. *)
Inductive HostCall : Type :=
| ipcRenderer_invoke_call (r : wid) (channel : string) (arg : value)
| ipcRenderer_send_call (r : wid) (channel : string) (arg : value)
| ipcRenderer_on_call (r : wid) (channel : string)
| ipcMain_handle_call (channel : string)
| ipcMain_on_call (channel : string)
| webContents_send_call (w : wid) (channel : string) (arg : value)
| exposeInMainWorld_call (r : wid) (apiKey : string).

(** The channel a call names ([None] for the bridge, which names a global). *)
Definition channel_of (c : HostCall) : option string :=
  match c with
  | ipcRenderer_invoke_call _ ch _ | ipcRenderer_send_call _ ch _
  | ipcRenderer_on_call _ ch | ipcMain_handle_call ch | ipcMain_on_call ch
  | webContents_send_call _ ch _ => Some ch
  | exposeInMainWorld_call _ _ => None
  end.

Section Host.
Context {App : Type}.

(** A function the transport calls back: [(e, arg) => ...]. *)
Definition listener : Type := IpcEvent → value → ST App value.

(** An application handler of a renderer-to-main action: [(arg, e) => ...]. *)
Definition handler : Type := value → IpcEvent → ST App value.

(** An application callback of a main-to-renderer action: [(arg) => ...]. *)
Definition callback : Type := value → ST App value.

(** The state of the host. *)
Record Host : Type := {
  app : App;
  (** every transport primitive called so far, oldest first *)
  calls : list HostCall;
  (** registrations made with [ipcMain.handle], oldest first *)
  ipcMain_handlers : list (string * listener);
  (** registrations made with [ipcMain.on] *)
  ipcMain_listeners : list (string * listener);
  (** registrations made with [ipcRenderer.on], with their renderer *)
  ipcRenderer_listeners : list (wid * string * listener);
  (** the windows that were closed or destroyed *)
  destroyed : list wid;
}.

Definition set_app (a : App) (h : Host) : Host :=
  {| app := a; calls := calls h;
     ipcMain_handlers := ipcMain_handlers h;
     ipcMain_listeners := ipcMain_listeners h;
     ipcRenderer_listeners := ipcRenderer_listeners h;
     destroyed := destroyed h |}.

Definition log (c : HostCall) (h : Host) : Host :=
  {| app := app h; calls := calls h ++ [c];
     ipcMain_handlers := ipcMain_handlers h;
     ipcMain_listeners := ipcMain_listeners h;
     ipcRenderer_listeners := ipcRenderer_listeners h;
     destroyed := destroyed h |}.

Definition add_ipcMain_handler (channel : string) (l : listener) (h : Host)
  : Host :=
  {| app := app h; calls := calls h;
     ipcMain_handlers := ipcMain_handlers h ++ [(channel, l)];
     ipcMain_listeners := ipcMain_listeners h;
     ipcRenderer_listeners := ipcRenderer_listeners h;
     destroyed := destroyed h |}.

Definition add_ipcMain_listener (channel : string) (l : listener) (h : Host)
  : Host :=
  {| app := app h; calls := calls h;
     ipcMain_handlers := ipcMain_handlers h;
     ipcMain_listeners := ipcMain_listeners h ++ [(channel, l)];
     ipcRenderer_listeners := ipcRenderer_listeners h;
     destroyed := destroyed h |}.

Definition add_ipcRenderer_listener (r : wid) (channel : string)
    (l : listener) (h : Host) : Host :=
  {| app := app h; calls := calls h;
     ipcMain_handlers := ipcMain_handlers h;
     ipcMain_listeners := ipcMain_listeners h;
     ipcRenderer_listeners := ipcRenderer_listeners h ++ [(r, channel, l)];
     destroyed := destroyed h |}.

(** Application code runs on the application state of the host. *)
Definition run_app {A} (m : ST App A) : ST Host A := zoom app set_app m.

(** Modelled from the spec: the delivery of a message by the electron
    package.  Every listener is called with the event and the payload;
    what a listener returns or throws is not observable to the sender. *)
Fixpoint emit (ls : list listener) (e : IpcEvent) (arg : value)
  : ST Host unit :=
  match ls with
  | [] => ret tt
  | l :: rest =>
      λ h, let '(_, h') := run_app (l e arg) h in emit rest e arg h'
  end.

(** The listeners a registry holds for a channel, oldest first. *)
Definition on_channel (channel : string) (reg : list (string * listener))
  : list listener :=
  (filter (λ p, p.1 = channel) reg).*2.

Definition of_renderer (r : wid) (reg : list (wid * string * listener))
  : list (string * listener) :=
  (λ p, (p.1.2, p.2)) <$> filter (λ p, p.1.1 = r) reg.

(** How the promise of a request settles on the completion of the listener
    that answers it. *)
Definition settle (c : completion value) : settlement value :=
  match c with
  | Normal v => await v
  | Throw e => Rejected e
  end.

(** Modelled from the spec: [ipcMain.handle] of the electron package,
    [handle(name, callback(eventMeta, arg) -> result|pendingResult)].  A
    registration coexists with the earlier ones. *)
Definition ipcMain_handle (channel : string) (l : listener) : ST Host unit :=
  _ <- modify (log (ipcMain_handle_call channel)) ;;
  modify (add_ipcMain_handler channel l).

(** Modelled from the spec: [ipcMain.on] of the electron package,
    [on(name, callback(eventMeta, arg))], from the privileged side. *)
Definition ipcMain_on (channel : string) (l : listener) : ST Host unit :=
  _ <- modify (log (ipcMain_on_call channel)) ;;
  modify (add_ipcMain_listener channel l).

(** Modelled from the spec: [ipcRenderer.on] of the electron package,
    [on(name, callback(eventMeta, arg))], from the sandboxed side, on
    renderer [r]. *)
Definition ipcRenderer_on (r : wid) (channel : string) (l : listener)
  : ST Host unit :=
  _ <- modify (log (ipcRenderer_on_call r channel)) ;;
  modify (add_ipcRenderer_listener r channel l).

(** Modelled from the spec: [ipcRenderer.invoke] of the electron package,
    [invoke(name, arg) -> pendingResult].  The request reaches the
    listeners registered with [ipcMain.handle] for the channel; the
    pending result settles with what the first of them returns or throws,
    and with no listener no response ever arrives. *)
Definition ipcRenderer_invoke (r : wid) (channel : string) (arg : value)
  : ST Host value :=
  _ <- modify (log (ipcRenderer_invoke_call r channel arg)) ;;
  hs <- gets (λ h, on_channel channel (ipcMain_handlers h)) ;;
  match hs with
  | [] => ret (VPromise Pending)
  | l :: rest =>
      c <- (λ h, let '(c, h') := run_app (l {| sender := r |} arg) h in
                 (Normal c, h')) ;;
      _ <- emit rest {| sender := r |} arg ;;
      ret (VPromise (settle c))
  end.

(** Modelled from the spec: [ipcRenderer.send] of the electron package,
    [send(name, arg) -> void]: fire and forget, to every listener
    registered with [ipcMain.on] for the channel. *)
Definition ipcRenderer_send (r : wid) (channel : string) (arg : value)
  : ST Host value :=
  _ <- modify (log (ipcRenderer_send_call r channel arg)) ;;
  ls <- gets (λ h, on_channel channel (ipcMain_listeners h)) ;;
  _ <- emit ls {| sender := r |} arg ;;
  ret VUndefined.

(** The error of a transport primitive that fails. *)
Definition TransportError : value := VError "Error".

(** Modelled from the spec: [window.webContents.send] of the electron
    package, [windowSend(window, name, arg) -> void]: fire and forget, to
    every listener the renderer of that window registered with
    [ipcRenderer.on] for the channel.  On a window that was closed or
    destroyed the primitive fails. *)
Definition webContents_send (w : wid) (channel : string) (arg : value)
  : ST Host value :=
  _ <- modify (log (webContents_send_call w channel arg)) ;;
  gone <- gets (λ h, bool_decide (w ∈ destroyed h)) ;;
  if gone then throw TransportError
  else
    ls <- gets (λ h, on_channel channel
                       (of_renderer w (ipcRenderer_listeners h))) ;;
    _ <- emit ls {| sender := w |} arg ;;
    ret VUndefined.

End Host.
Arguments Host App : clear implicits.
Arguments listener App : clear implicits.
Arguments handler App : clear implicits.
Arguments callback App : clear implicits.

(** ** Handler objects

    The handler objects the application passes to [main.fromRenderer] and
    [renderer.fromMain] are read by the property read [handlers[key]]
    only, own properties and inherited ones alike.  A handler object is
    therefore given by what that read yields: the map holds a key exactly
    when [handlers[key]] is a function, whether the object owns it or
    inherits it.  A handler object is a value here: a listener that reads
    it when a message arrives finds it as it was passed to the surface. *)

(** The handler object that owns [owned] and inherits [inherited] through
    its prototype chain (for an object literal, [toString], [valueOf],
    [constructor] and the other methods of [Object.prototype]): the read
    finds an own property first. *)
Definition with_inherited {F} (owned inherited : gmap string F)
  : gmap string F :=
  owned ∪ inherited.

(** ** The world: host, heap and renderer globals *)

(** A reference to an API table on the heap. *)
Definition loc : Type := nat.

(** [CreateIpcApiProps]: both tables are optional. *)
Module CreateIpcApiProps.
Record t : Type := {
  ipcKey : string;
  toMain : option loc;
  toRenderer : option loc;
}.
End CreateIpcApiProps.

Section World.
Context {App : Type}.

(** A function exposed on the bridge: taking a payload (the [m_] entries)
    or taking a callback (the [r_] entries). *)
Inductive bridge_fn : Type :=
| Caller (f : value → ST (Host App) value)
| Subscriber (f : callback App → ST (Host App) value).

Record World : Type := {
  host : Host App;
  (** the API tables the application declared, by reference *)
  heap : gmap loc table;
  (** [window[name]] of every renderer, as far as the bridge installed it *)
  globals : gmap (wid * string) (gmap string bridge_fn);
}.

Definition set_host (h : Host App) (w : World) : World :=
  {| host := h; heap := heap w; globals := globals w |}.

Definition set_heap (m : gmap loc table) (w : World) : World :=
  {| host := host w; heap := m; globals := globals w |}.

Definition set_globals (g : gmap (wid * string) (gmap string bridge_fn))
    (w : World) : World :=
  {| host := host w; heap := heap w; globals := g |}.

(** Host computations run on the host component of the world. *)
Definition on_host {A} (m : ST (Host App) A) : ST World A :=
  zoom host set_host m.

(** [Object.keys(t)] for a table reference. *)
Definition keys_at (t : loc) : ST World (list string) :=
  gets (λ w, Object_keys (heap w !!! t)).

(** [t[key].type] for a table reference: reading [type] of a missing
    entry throws. *)
Definition type_at (t : loc) (key : string) : ST World string :=
  d <- gets (λ w, get (heap w !!! t) key) ;;
  match d with
  | Some d => ret (type d)
  | None => throw TypeError
  end.

(** An object literal [{}] or a declared table put on the heap. *)
Definition alloc (t : table) : ST World loc :=
  l <- gets (λ w, fresh (dom (heap w))) ;;
  _ <- modify (λ w, set_heap (<[l := t]> (heap w)) w) ;;
  ret l.

(** Modelled from the spec: [contextBridge.exposeInMainWorld] of the
    electron package, [exposeInGlobalScope(namespaceKey, object)], in
    renderer [r]. *)
Definition contextBridge_exposeInMainWorld (r : wid) (apiKey : string)
    (api : gmap string bridge_fn) : ST World unit :=
  _ <- on_host (modify (log (exposeInMainWorld_call r apiKey))) ;;
  modify (λ w, set_globals (<[(r, apiKey) := api]> (globals w)) w).

(** Calling [handlers[key]], where the map holds what the read yields of
    own and inherited functions: calling what is not a function throws. *)
Definition call_handler (handlers : gmap string (handler App))
    (key : string) : handler App :=
  λ arg e,
    match handlers !! key with
    | Some f => f arg e
    | None => throw TypeError
    end.

(** Calling the callback read by [handlers[key]], likewise. *)
Definition call_callback (cb : option (callback App)) : callback App :=
  λ arg,
    match cb with
    | Some f => f arg
    | None => throw TypeError
    end.

(** ** createIpcApi.ts *)

Section Closure.
(** The bindings the returned methods close over. *)
Variables (ipcKey : string) (toMain toRender : loc).

(** [preload({ ipcRenderer, contextBridge })].  Every key assigned to
    [expose] starts with [m_] or [r_]; [Object.prototype] defines no such
    name, so each assignment creates or overwrites an own property. *)
Definition preload (ipcRenderer contextBridge : wid) : ST World value :=
  let expose : gmap string bridge_fn := ∅ in
  keys <- keys_at toMain ;;
  expose <- for_of_var keys expose (λ expose key,
    ty <- type_at toMain key ;;
    if String.eqb ty "twoWay" then
      ret (<["m_" +:+ key :=
             Caller (λ arg, ipcRenderer_invoke ipcRenderer key arg)]>
           expose)
    else
      ret (<["m_" +:+ key :=
             Caller (λ arg, ipcRenderer_send ipcRenderer key arg)]>
           expose)) ;;
  keys <- keys_at toRender ;;
  expose <- for_of_var keys expose (λ expose key,
    ret (<["r_" +:+ key :=
           Subscriber (λ cb,
             _ <- ipcRenderer_on ipcRenderer key (λ _ arg, cb arg) ;;
             ret VUndefined)]>
         expose)) ;;
  _ <- contextBridge_exposeInMainWorld contextBridge ipcKey expose ;;
  ret VUndefined.

(** [main.toRenderer({ window })] *)
Definition main_toRenderer (window : wid)
  : ST World (JsObject (value → ST (Host App) value)) :=
  let api : JsObject (value → ST (Host App) value) := ∅ in
  keys <- keys_at toRender ;;
  api <- for_of_var keys api (λ api key,
    assign_to api key (λ arg, webContents_send window key arg)) ;;
  ret api.

(** [main.fromRenderer({ handlers, ipcMain })] *)
Definition main_fromRenderer (handlers : gmap string (handler App))
    (ipcMain : unit) : ST World value :=
  keys <- keys_at toMain ;;
  _ <- for_of keys (λ key,
    ty <- type_at toMain key ;;
    if String.eqb ty "twoWay" then
      on_host (ipcMain_handle key (λ e arg,
        _ <- call_handler handlers key arg e ;;
        ret VUndefined))
    else
      on_host (ipcMain_on key (λ e arg,
        _ <- call_handler handlers key arg e ;;
        ret VUndefined))) ;;
  ret VUndefined.

(** The body of a method of [renderer.toMain()]:
    [window[ipcKey][name](arg)].  Reading a property of a missing
    namespace object throws, and so does calling a missing entry.  A
    bridge holds callers under the [m_] names and subscribers under the
    [r_] names; an entry of the other kind, which no [preload] installs,
    counts as not callable with this argument. *)
Definition call_bridge (window : wid) (name : string) (arg : value)
  : ST World value :=
  ns <- gets (λ w, globals w !! (window, ipcKey)) ;;
  match ns with
  | None => throw TypeError
  | Some ns =>
      match ns !! name with
      | Some (Caller f) => on_host (f arg)
      | Some (Subscriber _) | None => throw TypeError
      end
  end.

(** [renderer.toMain()], in the renderer whose global object is
    [window] *)
Definition renderer_toMain (window : wid)
  : ST World (JsObject (value → ST World value)) :=
  let api : JsObject (value → ST World value) := ∅ in
  keys <- keys_at toMain ;;
  api <- for_of_var keys api (λ api key,
    assign_to api key (λ arg, call_bridge window ("m_" +:+ key) arg)) ;;
  ret api.

(** The body of the loop of [renderer.fromMain]:
    [window[ipcKey][name](cb)]. *)
Definition subscribe_bridge (window : wid) (name : string)
    (cb : callback App) : ST World value :=
  ns <- gets (λ w, globals w !! (window, ipcKey)) ;;
  match ns with
  | None => throw TypeError
  | Some ns =>
      match ns !! name with
      | Some (Subscriber f) => on_host (f cb)
      | Some (Caller _) | None => throw TypeError
      end
  end.

(** [renderer.fromMain({ handlers })], in the renderer whose global
    object is [window] *)
Definition renderer_fromMain (window : wid)
    (handlers : gmap string (callback App)) : ST World value :=
  keys <- keys_at toRender ;;
  _ <- for_of keys (λ key,
    _ <- subscribe_bridge window ("r_" +:+ key)
           (call_callback (handlers !! key)) ;;
    ret tt) ;;
  ret VUndefined.

End Closure.

(** The object [createIpcApi] returns. *)
Record IpcApi : Type := {
  api_preload : wid → wid → ST World value;
  api_main_toRenderer :
    wid → ST World (JsObject (value → ST (Host App) value));
  api_main_fromRenderer :
    gmap string (handler App) → unit → ST World value;
  api_renderer_toMain :
    wid → ST World (JsObject (value → ST World value));
  api_renderer_fromMain :
    wid → gmap string (callback App) → ST World value;
}.

(** The object literal [createIpcApi] returns, over the bindings its
    methods close over. *)
Definition surfaces (ipcKey : string) (toMain toRender : loc) : IpcApi :=
  {| api_preload := preload ipcKey toMain toRender;
     api_main_toRenderer := main_toRenderer toRender;
     api_main_fromRenderer := main_fromRenderer toMain;
     api_renderer_toMain := renderer_toMain ipcKey toMain;
     api_renderer_fromMain := renderer_fromMain ipcKey toRender |}.

(** [createIpcApi(props)]: a table left out defaults to a new [{}]. *)
Definition createIpcApi (props : CreateIpcApiProps.t) : ST World IpcApi :=
  let ipcKey := CreateIpcApiProps.ipcKey props in
  toMain <- match CreateIpcApiProps.toMain props with
            | Some t => ret t
            | None => alloc []
            end ;;
  toRender <- match CreateIpcApiProps.toRenderer props with
              | Some t => ret t
              | None => alloc []
              end ;;
  ret (surfaces ipcKey toMain toRender).

End World.
Arguments World App : clear implicits.
Arguments bridge_fn App : clear implicits.
Arguments IpcApi App : clear implicits.

(** ** Using a contract

    What an application does with the object [createIpcApi] returned: it
    calls the five surfaces, and it calls the methods of the objects
    [main.toRenderer] and [renderer.toMain] hand out. *)

Section Calls.
Context {App : Type}.

Inductive SurfaceCall : Type :=
| call_preload (ipcRenderer contextBridge : wid)
| call_toRenderer (window : wid)
| call_fromRenderer (handlers : gmap string (handler App)) (ipcMain : unit)
| call_toMain (window : wid)
| call_fromMain (window : wid) (handlers : gmap string (callback App))
(** [main.toRenderer({ window })[key](arg)] *)
| use_toRenderer (window : wid) (key : string) (arg : value)
(** [renderer.toMain()[key](arg)] *)
| use_toMain (window : wid) (key : string) (arg : value).

Inductive SurfaceResult : Type :=
| returned (v : value)
| returned_senders (api : JsObject (value → ST (Host App) value))
| returned_callers (api : JsObject (value → ST (World App) value)).

(** [api[key](arg)] on what the read [api[key]] yields of the functions
    assigned to the object; without one the call throws.  The methods
    every object inherits from [Object.prototype], which touch neither the
    transport nor the tables, are not among the calls considered. *)
Definition call_method {S} (f : option (value → ST S value)) (arg : value)
  : ST S value :=
  match f with
  | Some f => f arg
  | None => throw TypeError
  end.

Definition run_call (api : IpcApi App) (c : SurfaceCall)
  : ST (World App) SurfaceResult :=
  match c with
  | call_preload ipcRenderer contextBridge =>
      v <- api_preload api ipcRenderer contextBridge ;; ret (returned v)
  | call_toRenderer window =>
      s <- api_main_toRenderer api window ;; ret (returned_senders s)
  | call_fromRenderer handlers ipcMain =>
      v <- api_main_fromRenderer api handlers ipcMain ;; ret (returned v)
  | call_toMain window =>
      s <- api_renderer_toMain api window ;; ret (returned_callers s)
  | call_fromMain window handlers =>
      v <- api_renderer_fromMain api window handlers ;; ret (returned v)
  | use_toRenderer window key arg =>
      s <- api_main_toRenderer api window ;;
      v <- on_host (call_method (s !! key) arg) ;;
      ret (returned v)
  | use_toMain window key arg =>
      s <- api_renderer_toMain api window ;;
      v <- call_method (s !! key) arg ;;
      ret (returned v)
  end.

(** The world after a sequence of calls; a call that throws leaves the
    world as it was when it threw, and the next call goes on from there. *)
Definition run_calls (api : IpcApi App) (cs : list SurfaceCall)
    (w : World App) : World App :=
  foldl (λ w c, (run_call api c w).2) w cs.

(** Whether the surfaces take the entry [t[key]] for a two-way action. *)
Definition twoWay_key (t : table) (key : string) : bool :=
  match get t key with
  | Some d => String.eqb (type d) "twoWay"
  | None => false
  end.

(** *** What the loops build

    The objects and registrations the loops of the surfaces leave behind,
    written as folds over the keys of a table; the lemmas below prove that
    the surfaces compute exactly these. *)

(** The listener [main.fromRenderer] registers for [key]. *)
Definition fromRenderer_listener (handlers : gmap string (handler App))
    (key : string) : listener App :=
  λ e arg, _ <- call_handler handlers key arg e ;; ret VUndefined.

(** The host after the loop of [main.fromRenderer] over [keys]. *)
Definition fromRenderer_registered (handlers : gmap string (handler App))
    (t : table) (keys : list string) (h : Host App) : Host App :=
  foldl (λ h key,
    if twoWay_key t key then
      add_ipcMain_handler key (fromRenderer_listener handlers key)
        (log (ipcMain_handle_call key) h)
    else
      add_ipcMain_listener key (fromRenderer_listener handlers key)
        (log (ipcMain_on_call key) h)) h keys.

(** The [m_] entry [preload] installs for [key]. *)
Definition exposed_caller (t : table) (ipcRenderer : wid) (key : string)
  : bridge_fn App :=
  if twoWay_key t key then
    Caller (λ arg, ipcRenderer_invoke ipcRenderer key arg)
  else
    Caller (λ arg, ipcRenderer_send ipcRenderer key arg).

(** The listener an [r_] entry registers for a callback. *)
Definition fromMain_listener (cb : callback App) : listener App :=
  λ _ arg, cb arg.

(** The [r_] entry [preload] installs for [key]. *)
Definition exposed_subscriber (ipcRenderer : wid) (key : string)
  : bridge_fn App :=
  Subscriber (λ cb,
    _ <- ipcRenderer_on ipcRenderer key (fromMain_listener cb) ;;
    ret VUndefined).

(** The object [preload] exposes. *)
Definition exposed (toMain toRender : table) (ipcRenderer : wid)
  : gmap string (bridge_fn App) :=
  foldl (λ expose key,
           <["r_" +:+ key := exposed_subscriber ipcRenderer key]> expose)
    (foldl (λ expose key,
              <["m_" +:+ key := exposed_caller toMain ipcRenderer key]> expose)
       ∅ (Object_keys toMain))
    (Object_keys toRender).

(** The loop [for (const key of keys) api[key] = fn key]: the object it
    leaves, or what it throws. *)
Fixpoint assign_each {F} (fn : string → F) (keys : list string)
    (api : JsObject F) : completion (JsObject F) :=
  match keys with
  | [] => Normal api
  | key :: rest =>
      match assign api key (fn key) with
      | Normal api' => assign_each fn rest api'
      | Throw e => Throw e
      end
  end.

(** The method [main.toRenderer] installs for [key]. *)
Definition toRenderer_method (window : wid) (key : string)
  : value → ST (Host App) value :=
  λ arg, webContents_send window key arg.

(** The method [renderer.toMain] installs for [key]. *)
Definition toMain_method (ipcKey : string) (window : wid) (key : string)
  : value → ST (World App) value :=
  λ arg, call_bridge ipcKey window ("m_" +:+ key) arg.

(** How [main.toRenderer] completes. *)
Definition senders (toRender : table) (window : wid)
  : completion (JsObject (value → ST (Host App) value)) :=
  assign_each (toRenderer_method window) (Object_keys toRender) ∅.

(** How [renderer.toMain] completes. *)
Definition callers (ipcKey : string) (toMain : table) (window : wid)
  : completion (JsObject (value → ST (World App) value)) :=
  assign_each (toMain_method ipcKey window) (Object_keys toMain) ∅.

(** The own properties the loop creates when no key is [__proto__]. *)
Definition methods {F} (fn : string → F) (keys : list string)
  : gmap string F :=
  foldl (λ api key, <[key := fn key]> api) ∅ keys.

(** The host after the loop of [renderer.fromMain] over [keys], when the
    bridge of renderer [r] is in place. *)
Definition fromMain_registered (handlers : gmap string (callback App))
    (r : wid) (keys : list string) (h : Host App) : Host App :=
  foldl (λ h key,
    add_ipcRenderer_listener r key
      (fromMain_listener (call_callback (handlers !! key)))
      (log (ipcRenderer_on_call r key) h)) h keys.

(** Every namespace object among the globals is one a [preload] exposed. *)
Definition bridges_only (w : World App) : Prop :=
  ∀ k ns, globals w !! k = Some ns →
    ∃ toMain toRender ipcRenderer, ns = exposed toMain toRender ipcRenderer.

(** The three listener registries of [h] are initial segments of those of
    [h']: nothing was removed or replaced. *)
Definition grows (h h' : Host App) : Prop :=
  ipcMain_handlers h `prefix_of` ipcMain_handlers h' ∧
  ipcMain_listeners h `prefix_of` ipcMain_listeners h' ∧
  ipcRenderer_listeners h `prefix_of` ipcRenderer_listeners h'.

(** [w'] continues [w]: the heap is the same, and when the globals of [w]
    hold bridges only, so do those of [w'], and no listener is gone. *)
Definition continues (w w' : World App) : Prop :=
  heap w' = heap w ∧
  (bridges_only w → bridges_only w' ∧ grows (host w) (host w')).

(** Two worlds that differ at most in the placeholder fields of the
    descriptors on their heaps. *)
Definition same_tags (w1 w2 : World App) : Prop :=
  host w1 = host w2 ∧ globals w1 = globals w2 ∧
  dom (heap w1) = dom (heap w2) ∧
  ∀ l, tags (heap w1 !!! l) = tags (heap w2 !!! l).

(** A computation that cannot tell such worlds apart: it completes the
    same way in both and leaves them differing in placeholders at most. *)
Definition reads_tags_only {A} (m : ST (World App) A) : Prop :=
  ∀ w1 w2, same_tags w1 w2 →
    (m w1).1 = (m w2).1 ∧ same_tags (m w1).2 (m w2).2.

End Calls.
Arguments SurfaceCall App : clear implicits.
Arguments SurfaceResult App : clear implicits.

(** ** The README's example application

    [toMain = { logMessage: oneWayAction<string>(),
                fetchData: twoWayAction<{ id: number }, { name: string }>() }],
    [toRenderer = { notify: oneWayAction<string>() }], [ipcKey = "myIpc"].
    The application state is what the handlers have printed so far. *)

Module Readme.

Definition Console : Type := list (string * value).

Definition console_log (label : string) (v : value) : ST Console value :=
  _ <- modify (λ out, out ++ [(label, v)]) ;; ret VUndefined.

Definition toMain : table :=
  [("logMessage", oneWayAction ()); ("fetchData", twoWayAction ())].

Definition toRenderer : table :=
  [("notify", oneWayAction ())].

(** [logMessage: (msg) => console.log("Renderer says:", msg)],
    [fetchData: async ({ id }) => ({ name: `Item ${id}` })].  The methods
    the literal inherits from [Object.prototype], which no name of the
    example reaches, are left out, here and in the handler objects
    below. *)
Definition main_handlers : gmap string (handler Console) :=
  {[ "logMessage" := (λ msg _, console_log "Renderer says:" msg);
     "fetchData" := (λ arg _,
       match arg with
       | VObj [("id", VNum id)] =>
           ret (VPromise (Fulfilled
                  (VObj [("name", VStr ("Item " +:+ pretty id))])))
       | _ => ret (VPromise (Fulfilled
                  (VObj [("name", VStr "Item undefined")])))
       end) ]}.

(** [notify: (msg) => { console.log("Main says:", msg) }] *)
Definition renderer_handlers : gmap string (callback Console) :=
  {[ "notify" := (λ msg, console_log "Main says:" msg) ]}.

Definition props : CreateIpcApiProps.t :=
  {| CreateIpcApiProps.ipcKey := "myIpc";
     CreateIpcApiProps.toMain := Some 0;
     CreateIpcApiProps.toRenderer := Some 1 |}.

(** Nothing registered, nothing exposed, the two tables declared. *)
Definition start : World Console :=
  {| host := {| app := []; calls := []; ipcMain_handlers := [];
                ipcMain_listeners := []; ipcRenderer_listeners := [];
                destroyed := [] |};
     heap := {[ 0 := toMain; 1 := toRenderer ]};
     globals := ∅ |}.

(** The window (and renderer) of the example. *)
Definition win : wid := 1.

(** Steps 2 to 5 of the README, ending with
    [toMain.fetchData({ id: 42 })]. *)
Definition fetchData_42 : ST (World Console) value :=
  ipc <- createIpcApi props ;;
  _ <- api_preload ipc win win ;;
  _ <- api_main_fromRenderer ipc main_handlers () ;;
  toMain <- api_renderer_toMain ipc win ;;
  call_method (toMain !! "fetchData") (VObj [("id", VNum 42)]).

(** A session in which both registration surfaces are called twice. *)
Definition session : list (SurfaceCall Console) :=
  [ call_preload win win;
    call_fromRenderer main_handlers ();
    call_fromMain win renderer_handlers;
    use_toMain win "logMessage" (VStr "Hello main!");
    use_toMain win "fetchData" (VObj [("id", VNum 42)]);
    use_toRenderer win "notify" (VStr "Hello from main!");
    call_fromRenderer main_handlers ();
    call_fromMain win renderer_handlers ].

(** The same start with other values in the placeholder fields of the
    descriptors. *)
Definition start_with_payloads : World Console :=
  set_heap
    {[ 0 := [("logMessage", IpcOneWayAction (VStr "hello"));
             ("fetchData", IpcTwoWayAction (VObj [("id", VNum 42)])
                             (VObj [("name", VStr "Item 42")]))];
       1 := [("notify", IpcOneWayAction (VStr "hi"))] ]}
    start.

(** The own properties of a handler object with nothing under
    [fetchData]. *)
Definition handlers_without_fetchData : gmap string (handler Console) :=
  {[ "logMessage" := (λ msg _, console_log "Renderer says:" msg) ]}.

(** The renderer-to-main table and handlers of a second contract in the
    same application, which declares [logMessage] too. *)
Definition other_toMain : table :=
  [("ping", twoWayAction ()); ("logMessage", oneWayAction ())].

Definition other_handlers : gmap string (handler Console) :=
  {[ "ping" := (λ _ _, ret (VStr "pong"));
     "logMessage" := (λ msg _, console_log "Other says:" msg) ]}.

Definition start_with_two_contracts : World Console :=
  set_heap {[ 0 := toMain; 1 := toRenderer; 2 := other_toMain ]} start.




End Readme.

(** * Proofs *)

#[local] Set Warnings "-clear-no-such-hyp".

Section Proofs.
Context {App : Type}.
Implicit Types (w : World App) (h : Host App) (t : table).
Implicit Types (key name : string) (keys : list string).

(** ** The monad *)

Lemma bind_normal {S A B} (m : ST S A) (k : A → ST S B) s a s' :
  m s = (Normal a, s') → bind m k s = k a s'.
Proof. unfold bind. by intros ->. Qed.

(** A computation that leaves the state alone. *)
Lemma bind_pure {S A B} (m : ST S A) (k : A → ST S B) s c :
  m s = (c, s) →
  bind m k s = match c with
               | Normal a => k a s
               | Throw e => (Throw e, s)
               end.
Proof. unfold bind. intros ->. by destruct c. Qed.

(** ** Reading a table *)

Lemma get_is_Some t key : key ∈ Object_keys t → is_Some (get t key).
Proof.
  unfold get, Object_keys. intros Hin.
  apply elem_of_dom. rewrite dom_list_to_map_L. by apply elem_of_list_to_set.
Qed.

Lemma keys_at_eq l w : keys_at l w = (Normal (Object_keys (heap w !!! l)), w).
Proof. reflexivity. Qed.

(** The test [t[key].type === "twoWay"] on a key of the table. *)
Lemma type_at_dispatch {A} l key (a b : ST (World App) A) w :
  key ∈ Object_keys (heap w !!! l) →
  (ty <- type_at l key ;; if String.eqb ty "twoWay" then a else b) w
  = if twoWay_key (heap w !!! l) key then a w else b w.
Proof.
  intros [d Hd]%get_is_Some.
  unfold twoWay_key, type_at, bind, gets. rewrite Hd. simpl.
  by destruct (String.eqb (type d) "twoWay").
Qed.

(** ** The loops of [preload] *)

Lemma preload_loop_toMain l ir w keys (e0 : gmap string (bridge_fn App)) :
  keys ⊆ Object_keys (heap w !!! l) →
  for_of_var keys e0 (λ expose key,
    ty <- type_at l key ;;
    if String.eqb ty "twoWay" then
      ret (<["m_" +:+ key :=
             Caller (λ arg, ipcRenderer_invoke ir key arg)]> expose)
    else
      ret (<["m_" +:+ key :=
             Caller (λ arg, ipcRenderer_send ir key arg)]> expose)) w
  = (Normal (foldl (λ expose key,
       <["m_" +:+ key := exposed_caller (heap w !!! l) ir key]> expose)
       e0 keys), w).
Proof.
  revert e0. induction keys as [|key keys IH]; intros e0 Hsub; [done|].
  cbn [for_of_var foldl].
  erewrite bind_normal; [apply IH; set_solver|].
  rewrite type_at_dispatch by set_solver.
  unfold exposed_caller. by destruct (twoWay_key _ _).
Qed.

Lemma preload_loop_toRender ir w keys (e0 : gmap string (bridge_fn App)) :
  for_of_var keys e0 (λ expose key,
    ret (<["r_" +:+ key :=
           Subscriber (λ cb,
             _ <- ipcRenderer_on ir key (λ _ arg, cb arg) ;;
             ret VUndefined)]> expose)) w
  = (Normal (foldl (λ expose key,
       <["r_" +:+ key := exposed_subscriber ir key]> expose) e0 keys), w).
Proof.
  revert e0. induction keys as [|key keys IH]; intros e0; [done|].
  cbn [for_of_var foldl]. erewrite bind_normal; [apply IH|done].
Qed.

(** [preload] never throws; it exposes [exposed] and does nothing else. *)
Lemma preload_eq ipcKey toMain toRender ir cb w :
  preload ipcKey toMain toRender ir cb w
  = (Normal VUndefined,
     set_globals (<[(cb, ipcKey) :=
                    exposed (heap w !!! toMain) (heap w !!! toRender) ir]>
                  (globals w))
       (set_host (log (exposeInMainWorld_call cb ipcKey) (host w)) w)).
Proof.
  unfold preload.
  erewrite bind_normal by apply keys_at_eq.
  erewrite bind_normal by (by apply preload_loop_toMain).
  erewrite bind_normal by apply keys_at_eq.
  erewrite bind_normal by apply preload_loop_toRender.
  reflexivity.
Qed.


(** ** The other loops *)

Lemma assign_loop {S F} (fn : string → F) keys (a0 : JsObject F) (s : S) :
  for_of_var keys a0 (λ api key, assign_to api key (fn key)) s
  = (assign_each fn keys a0, s).
Proof.
  revert a0. induction keys as [|key keys IH]; intros a0; [done|].
  cbn [for_of_var assign_each]. unfold bind, assign_to at 1.
  destruct (assign a0 key (fn key)); [apply IH|done].
Qed.

(** [main.toRenderer] touches nothing and completes as [senders]. *)
Lemma main_toRenderer_eq toRender window w :
  main_toRenderer toRender window w
  = (senders (heap w !!! toRender) window, w).
Proof.
  unfold main_toRenderer.
  erewrite bind_normal by apply keys_at_eq.
  unfold bind, senders.
  rewrite (assign_loop (toRenderer_method window) _ _ w
           : for_of_var _ _ (λ api key,
               assign_to api key (λ arg, webContents_send window key arg)) w
             = _).
  by destruct (assign_each _ _ _).
Qed.

(** [renderer.toMain] touches nothing and completes as [callers]. *)
Lemma renderer_toMain_eq ipcKey toMain window w :
  renderer_toMain ipcKey toMain window w
  = (callers ipcKey (heap w !!! toMain) window, w).
Proof.
  unfold renderer_toMain.
  erewrite bind_normal by apply keys_at_eq.
  unfold bind, callers.
  rewrite (assign_loop (toMain_method ipcKey window) _ _ w
           : for_of_var _ _ (λ api key,
               assign_to api key
                 (λ arg, call_bridge ipcKey window ("m_" +:+ key) arg)) w
             = _).
  by destruct (assign_each _ _ _).
Qed.

Lemma fromRenderer_loop l handlers keys w :
  keys ⊆ Object_keys (heap w !!! l) →
  for_of keys (λ key,
    ty <- type_at l key ;;
    if String.eqb ty "twoWay" then
      on_host (ipcMain_handle key (λ e arg,
        _ <- call_handler handlers key arg e ;;
        ret VUndefined))
    else
      on_host (ipcMain_on key (λ e arg,
        _ <- call_handler handlers key arg e ;;
        ret VUndefined))) w
  = (Normal (),
     set_host (fromRenderer_registered handlers (heap w !!! l) keys (host w))
       w).
Proof.
  revert w. induction keys as [|key keys IH]; intros w Hsub.
  { by destruct w. }
  cbn [for_of]. unfold fromRenderer_registered. cbn [foldl].
  destruct (twoWay_key (heap w !!! l) key) eqn:Htw.
  all: erewrite bind_normal;
    [|rewrite type_at_dispatch by set_solver; rewrite Htw; reflexivity].
  all: rewrite IH by (cbn; set_solver); reflexivity.
Qed.

(** [main.fromRenderer] never throws; it registers one listener per key. *)
Lemma main_fromRenderer_eq toMain handlers ipcMain w :
  main_fromRenderer toMain handlers ipcMain w
  = (Normal VUndefined,
     set_host (fromRenderer_registered handlers (heap w !!! toMain)
                 (Object_keys (heap w !!! toMain)) (host w)) w).
Proof.
  unfold main_fromRenderer.
  erewrite bind_normal by apply keys_at_eq.
  erewrite bind_normal by (by apply fromRenderer_loop).
  reflexivity.
Qed.


(** ** Objects built by assigning one property per key *)

Section Assigned.
Context {V : Type} (f : string → string) (g : string → V).
Context `{!Inj (=) (=) f}.

Lemma assigned_other keys (m0 : gmap string V) name :
  (∀ key, key ∈ keys → f key ≠ name) →
  foldl (λ m key, <[f key := g key]> m) m0 keys !! name = m0 !! name.
Proof.
  revert m0. induction keys as [|k keys IH]; intros m0 Hne; [done|].
  cbn [foldl]. rewrite IH by (intros; apply Hne; set_solver).
  apply lookup_insert_ne, Hne. set_solver.
Qed.

Lemma assigned_lookup keys (m0 : gmap string V) key :
  key ∈ keys →
  foldl (λ m key, <[f key := g key]> m) m0 keys !! f key = Some (g key).
Proof.
  revert m0. induction keys as [|k keys IH]; intros m0 Hin; [set_solver|].
  cbn [foldl]. destruct (decide (key ∈ keys)) as [|Hnot]; [by apply IH|].
  assert (key = k) as -> by set_solver.
  rewrite assigned_other; [apply lookup_insert_eq|].
  intros k' Hk' Heq. apply Hnot. by rewrite <-(inj f _ _ Heq).
Qed.

Lemma assigned_dom keys (m0 : gmap string V) :
  dom (foldl (λ m key, <[f key := g key]> m) m0 keys)
  = dom m0 ∪ list_to_set (f <$> keys).
Proof.
  revert m0. induction keys as [|k keys IH]; intros m0; cbn [foldl].
  { set_solver. }
  rewrite IH, dom_insert_L. set_solver.
Qed.

End Assigned.

Lemma m_r_disjoint key key' : "m_" +:+ key ≠ "r_" +:+ key'.
Proof. discriminate. Qed.

#[local] Instance m_prefix_inj : Inj (=) (=) (String.append "m_").
Proof. intros k1 k2 Heq. by simplify_eq/=. Qed.

#[local] Instance r_prefix_inj : Inj (=) (=) (String.append "r_").
Proof. intros k1 k2 Heq. by simplify_eq/=. Qed.

(** ** The exposed object *)

Lemma exposed_caller_lookup toMain toRender ir key :
  key ∈ Object_keys toMain →
  (exposed toMain toRender ir : gmap string (bridge_fn App)) !! ("m_" +:+ key)
  = Some (exposed_caller toMain ir key).
Proof.
  intros Hin. unfold exposed.
  rewrite (assigned_other (String.append "r_") (exposed_subscriber ir)).
  - by apply (assigned_lookup (String.append "m_") (exposed_caller toMain ir)).
  - intros k _ Heq. by eapply m_r_disjoint.
Qed.

Lemma exposed_subscriber_lookup toMain toRender ir key :
  key ∈ Object_keys toRender →
  (exposed toMain toRender ir : gmap string (bridge_fn App)) !! ("r_" +:+ key)
  = Some (exposed_subscriber ir key).
Proof.
  intros Hin. unfold exposed.
  by apply (assigned_lookup (String.append "r_") (exposed_subscriber ir)).
Qed.

Lemma exposed_dom toMain toRender ir :
  dom (exposed toMain toRender ir : gmap string (bridge_fn App))
  = list_to_set (String.append "m_" <$> Object_keys toMain)
    ∪ list_to_set (String.append "r_" <$> Object_keys toRender).
Proof.
  unfold exposed.
  rewrite (assigned_dom (String.append "r_") (exposed_subscriber ir)).
  rewrite (assigned_dom (String.append "m_") (exposed_caller toMain ir)).
  set_solver.
Qed.

(** ** The objects of [main.toRenderer] and [renderer.toMain] *)

Lemma JsObject_lookup_eq {F} (o : JsObject F) key :
  o !! key = match own o !! key with
             | Some f => Some f
             | None => if decide (key = "__proto__") then proto o else None
             end.
Proof. reflexivity. Qed.

Lemma JsObject_lookup_empty {F} key : (∅ : JsObject F) !! key = None.
Proof.
  rewrite JsObject_lookup_eq. cbn. rewrite lookup_empty. by destruct (decide _).
Qed.

(** An own property is what the read yields. *)
Lemma JsObject_lookup_own {F} (o : JsObject F) key f :
  own o !! key = Some f → o !! key = Some f.
Proof. rewrite JsObject_lookup_eq. by intros ->. Qed.

(** Assigning any other key than [__proto__] to an object that still has
    [Object.prototype] for prototype creates or overwrites the property. *)
Lemma assign_plain {F} (o : JsObject F) key (f : F) :
  key ≠ "__proto__" → proto o = None →
  assign o key f = Normal {| own := <[key := f]> (own o); proto := None |}.
Proof.
  intros Hkey Hproto. unfold assign. rewrite Hproto.
  destruct (own o !! key); [done|]. by destruct (decide (key = "__proto__")).
Qed.

Lemma assign_each_plain {F} (fn : string → F) keys (o : JsObject F) :
  "__proto__" ∉ keys → proto o = None →
  assign_each fn keys o
  = Normal {| own := foldl (λ api key, <[key := fn key]> api) (own o) keys;
              proto := None |}.
Proof.
  revert o. induction keys as [|key keys IH]; intros o Hnot Hproto.
  { destruct o as [m p]. cbn in *. by subst. }
  cbn [assign_each foldl]. rewrite assign_plain by set_solver.
  rewrite IH by set_solver. done.
Qed.

(** Every function an assignment leaves readable is the one assigned or
    was readable before. *)
Lemma assign_inv {F} (o o' : JsObject F) key (f : F) name g :
  assign o key f = Normal o' → o' !! name = Some g →
  g = f ∨ o !! name = Some g.
Proof.
  rewrite !JsObject_lookup_eq. unfold assign.
  destruct (own o !! key) eqn:Hown.
  - intros [= <-]. cbn. destruct (decide (name = key)) as [->|Hne].
    + rewrite lookup_insert_eq. intros [= <-]. by left.
    + rewrite lookup_insert_ne by done. by right.
  - destruct (decide (key = "__proto__")) as [->|Hkey].
    { intros [= <-]. cbn. destruct (own o !! name); [by right|].
      destruct (decide (name = "__proto__")); [|done].
      intros [= <-]. by left. }
    assert (Normal {| own := <[key := f]> (own o); proto := proto o |}
            = Normal o' → 
            match own o' !! name with
            | Some f0 => Some f0
            | None => if decide (name = "__proto__") then proto o' else None
            end = Some g → g = f ∨
            match own o !! name with
            | Some f0 => Some f0
            | None => if decide (name = "__proto__") then proto o else None
            end = Some g) as Hins.
    { intros [= <-]. cbn. destruct (decide (name = key)) as [->|Hne].
      + rewrite lookup_insert_eq. intros [= <-]. by left.
      + rewrite lookup_insert_ne by done. by right. }
    destruct (proto o); [|done].
    by destruct (decide (key ∈ read_only_of_functions)).
Qed.

Lemma assign_each_inv {F} (fn : string → F) keys (o o' : JsObject F) name g :
  assign_each fn keys o = Normal o' → o' !! name = Some g →
  (∃ key, key ∈ keys ∧ g = fn key) ∨ o !! name = Some g.
Proof.
  revert o. induction keys as [|key keys IH]; intros o; cbn [assign_each].
  { intros [= <-] ?. by right. }
  destruct (assign o key (fn key)) as [o1|] eqn:Hassign; [|done].
  intros Heach Hg. destruct (IH _ Heach Hg) as [(k & Hk & ->)|Hg1].
  { left. exists k. split; [set_solver|done]. }
  destruct (assign_inv _ _ _ _ _ _ Hassign Hg1) as [->|Hg0]; [|by right].
  left. exists key. split; [set_solver|done].
Qed.

Lemma methods_lookup {F} (fn : string → F) keys key :
  key ∈ keys → methods fn keys !! key = Some (fn key).
Proof. intros Hin. by apply (assigned_lookup id fn). Qed.


(** Without the key [__proto__] in the table, [main.toRenderer] returns
    an object with one own method per key. *)
Lemma senders_plain toRender window :
  "__proto__" ∉ Object_keys toRender →
  (senders toRender window
     : completion (JsObject (value → ST (Host App) value)))
  = Normal {| own := methods (toRenderer_method window) (Object_keys toRender);
              proto := None |}.
Proof. intros Hnot. unfold senders. by rewrite assign_each_plain. Qed.

Lemma callers_plain ipcKey toMain window :
  "__proto__" ∉ Object_keys toMain →
  (callers ipcKey toMain window
     : completion (JsObject (value → ST (World App) value)))
  = Normal {| own := methods (toMain_method ipcKey window) (Object_keys toMain);
              proto := None |}.
Proof. intros Hnot. unfold callers. by rewrite assign_each_plain. Qed.

(** Whatever [main.toRenderer] returns, its readable functions are
    senders of the window. *)
Lemma senders_inv toRender window
    (api : JsObject (value → ST (Host App) value)) name g :
  senders toRender window = Normal api → api !! name = Some g →
  ∃ key, key ∈ Object_keys toRender ∧ g = toRenderer_method window key.
Proof.
  intros Heach Hg.
  destruct (assign_each_inv _ _ _ _ _ _ Heach Hg) as [?|Hempty]; [done|].
  by rewrite JsObject_lookup_empty in Hempty.
Qed.

Lemma callers_inv ipcKey toMain window
    (api : JsObject (value → ST (World App) value)) name g :
  callers ipcKey toMain window = Normal api → api !! name = Some g →
  ∃ key, key ∈ Object_keys toMain ∧ g = toMain_method ipcKey window key.
Proof.
  intros Heach Hg.
  destruct (assign_each_inv _ _ _ _ _ _ Heach Hg) as [?|Hempty]; [done|].
  by rewrite JsObject_lookup_empty in Hempty.
Qed.


(** ** The host's primitives *)

(** Application code changes the application state and nothing else. *)
Lemma run_app_eq {A} (m : ST App A) h :
  run_app m h = ((m (app h)).1, set_app (m (app h)).2 h).
Proof. unfold run_app, zoom. by destruct (m (app h)). Qed.

Lemma emit_eq (ls : list (listener App)) e arg h :
  ∃ a, emit ls e arg h = (Normal (), set_app a h).
Proof.
  revert h. induction ls as [|l ls IH]; intros h; cbn [emit].
  { exists (app h). by destruct h. }
  rewrite run_app_eq. destruct (IH (set_app (l e arg (app h)).2 h)) as [a ->].
  by exists a.
Qed.

Lemma ipcRenderer_invoke_eq r channel arg h :
  ∃ p a, ipcRenderer_invoke r channel arg h
         = (Normal (VPromise p),
            set_app a (log (ipcRenderer_invoke_call r channel arg) h)).
Proof.
  unfold ipcRenderer_invoke.
  erewrite bind_normal by reflexivity. erewrite bind_normal by reflexivity.
  generalize (log (ipcRenderer_invoke_call r channel arg) h). intros h'.
  cbn beta. destruct (on_channel channel (ipcMain_handlers h')) as [|l rest].
  { exists Pending, (app h'). by destruct h'. }
  erewrite bind_normal by (rewrite run_app_eq; reflexivity).
  edestruct emit_eq as [a Ha]. erewrite bind_normal by apply Ha.
  by eexists _, a.
Qed.

Lemma ipcRenderer_send_eq r channel arg h :
  ∃ a, ipcRenderer_send r channel arg h
       = (Normal VUndefined,
          set_app a (log (ipcRenderer_send_call r channel arg) h)).
Proof.
  unfold ipcRenderer_send.
  erewrite bind_normal by reflexivity. erewrite bind_normal by reflexivity.
  edestruct emit_eq as [a Ha]. erewrite bind_normal by apply Ha. by exists a.
Qed.

(** [webContents.send] logs its call and reaches application state only:
    it fails on a destroyed window and returns nothing otherwise. *)
Lemma webContents_send_eq window channel arg h :
  ∃ a, webContents_send window channel arg h
       = (if bool_decide (window ∈ destroyed h) then Throw TransportError
          else Normal VUndefined,
          set_app a (log (webContents_send_call window channel arg) h)).
Proof.
  unfold webContents_send.
  erewrite bind_normal by reflexivity. erewrite bind_normal by reflexivity.
  cbn [destroyed log]. destruct (bool_decide (window ∈ destroyed h)).
  { exists (app h). by destruct h. }
  erewrite bind_normal by reflexivity.
  edestruct emit_eq as [a Ha]. erewrite bind_normal by apply Ha. by exists a.
Qed.

(** What an exposed subscriber does with a callback. *)
Lemma exposed_subscriber_eq ir key (cb : callback App) h :
  (_ <- ipcRenderer_on ir key (fromMain_listener cb) ;; ret VUndefined) h
  = (Normal VUndefined,
     add_ipcRenderer_listener ir key (fromMain_listener cb)
       (log (ipcRenderer_on_call ir key) h)).
Proof. reflexivity. Qed.

(** ** [renderer.fromMain] once the bridge is in place *)

Lemma fromMain_loop ipcKey window handlers toMain toRender ir keys w :
  globals w !! (window, ipcKey) = Some (exposed toMain toRender ir) →
  keys ⊆ Object_keys toRender →
  for_of keys (λ key,
    _ <- subscribe_bridge ipcKey window ("r_" +:+ key)
           (call_callback (handlers !! key)) ;;
    ret ()) w
  = (Normal (), set_host (fromMain_registered handlers ir keys (host w)) w).
Proof.
  revert w. induction keys as [|key keys IH]; intros w Hns Hsub.
  { by destruct w. }
  cbn [for_of]. unfold fromMain_registered. cbn [foldl].
  erewrite bind_normal.
  2: { unfold subscribe_bridge. erewrite bind_normal.
       2: { erewrite bind_normal by reflexivity. cbn beta. rewrite Hns.
            rewrite exposed_subscriber_lookup by set_solver. reflexivity. }
       reflexivity. }
  rewrite IH; [reflexivity|done|set_solver].
Qed.

Lemma renderer_fromMain_eq ipcKey toRender window handlers toMain' ir w :
  globals w !! (window, ipcKey)
  = Some (exposed toMain' (heap w !!! toRender) ir) →
  renderer_fromMain ipcKey toRender window handlers w
  = (Normal VUndefined,
     set_host (fromMain_registered handlers ir
                 (Object_keys (heap w !!! toRender)) (host w)) w).
Proof.
  intros Hns. unfold renderer_fromMain.
  erewrite bind_normal by apply keys_at_eq.
  erewrite bind_normal by (by eapply fromMain_loop).
  reflexivity.
Qed.


(** ** Claims about [preload] *)

Lemma get_Some_key t key d : get t key = Some d → key ∈ Object_keys t.
Proof.
  unfold get, Object_keys. intros Hd%elem_of_list_to_map_2.
  apply list_elem_of_fmap. by exists (key, d).
Qed.

Lemma exposed_size toMain toRender ir :
  NoDup (Object_keys toMain) → NoDup (Object_keys toRender) →
  size (exposed toMain toRender ir : gmap string (bridge_fn App))
  = length toMain + length toRender.
Proof.
  intros Hm Hr. rewrite <-size_dom, exposed_dom, size_union.
  - rewrite !size_list_to_set by (by apply (NoDup_fmap_2 _)).
    unfold Object_keys. by rewrite !length_fmap.
  - intros name [k [-> _]]%elem_of_list_to_set%list_elem_of_fmap
               [k' [Heq _]]%elem_of_list_to_set%list_elem_of_fmap.
    by eapply m_r_disjoint.
Qed.

(** C2. [preload] installs on the bridge object, under the namespace key,
    exactly the keys ["m_" + name] for the names of the renderer-to-main
    table and ["r_" + name] for the names of the main-to-renderer table,
    one entry per action; and whatever argument an installed callable is
    applied to, it makes exactly one call to a transport primitive, on the
    channel [name] without prefix. *)
Theorem preload_exposes_prefixed_keys
    ipcKey toMain toRender ipcRenderer contextBridge w :
  let tm := heap w !!! toMain in
  let tr := heap w !!! toRender in
  let after := preload ipcKey toMain toRender ipcRenderer contextBridge w in
  ∃ expose : gmap string (bridge_fn App),
    after.1 = Normal VUndefined ∧
    globals after.2 !! (contextBridge, ipcKey) = Some expose ∧
    dom expose
    = list_to_set (String.append "m_" <$> Object_keys tm)
      ∪ list_to_set (String.append "r_" <$> Object_keys tr) ∧
    (NoDup (Object_keys tm) → NoDup (Object_keys tr) →
     size expose = length tm + length tr) ∧
    (∀ name, name ∈ Object_keys tm →
       ∃ f, expose !! ("m_" +:+ name) = Some (Caller f) ∧
            ∀ arg h, ∃ c, calls (f arg h).2 = calls h ++ [c] ∧
                          channel_of c = Some name) ∧
    (∀ name, name ∈ Object_keys tr →
       ∃ f, expose !! ("r_" +:+ name) = Some (Subscriber f) ∧
            ∀ cb h, ∃ c, calls (f cb h).2 = calls h ++ [c] ∧
                         channel_of c = Some name).
Proof.
  intros tm tr after. subst after. rewrite preload_eq. fold tm tr.
  exists (exposed tm tr ipcRenderer). cbn [fst snd globals set_globals].
  split_and!.
  - done.
  - apply lookup_insert_eq.
  - apply exposed_dom.
  - apply exposed_size.
  - intros name Hin. rewrite exposed_caller_lookup by done.
    unfold exposed_caller. destruct (twoWay_key tm name).
    + eexists. split; [done|]. intros arg h.
      destruct (ipcRenderer_invoke_eq ipcRenderer name arg h) as (p & a & ->).
      by eexists.
    + eexists. split; [done|]. intros arg h.
      destruct (ipcRenderer_send_eq ipcRenderer name arg h) as (a & ->).
      by eexists.
  - intros name Hin. rewrite exposed_subscriber_lookup by done.
    eexists. split; [done|]. intros cb h. by eexists.
Qed.

(** C3. The callable [preload] installs for a renderer-to-main entry
    dispatches on the descriptor's tag.  For a two-way descriptor it is
    [ipcRenderer.invoke] on the entry's name with the argument it received,
    and it returns the promise [invoke] returned; for a one-way descriptor
    it is [ipcRenderer.send] on the entry's name with that argument, and it
    returns [undefined]. *)
Theorem preload_caller_dispatches_on_tag
    ipcKey toMain toRender ipcRenderer contextBridge w name d :
  get (heap w !!! toMain) name = Some d →
  let after := preload ipcKey toMain toRender ipcRenderer contextBridge w in
  ∃ expose f,
    globals after.2 !! (contextBridge, ipcKey) = Some expose ∧
    expose !! ("m_" +:+ name) = Some (Caller f) ∧
    (type d = "twoWay" →
     ∀ arg h,
       f arg h = ipcRenderer_invoke ipcRenderer name arg h ∧
       (∃ p, (f arg h).1 = Normal (VPromise p)) ∧
       calls (f arg h).2
       = calls h ++ [ipcRenderer_invoke_call ipcRenderer name arg]) ∧
    (type d = "oneWay" →
     ∀ arg h,
       f arg h = ipcRenderer_send ipcRenderer name arg h ∧
       (f arg h).1 = Normal VUndefined ∧
       calls (f arg h).2
       = calls h ++ [ipcRenderer_send_call ipcRenderer name arg]).
Proof.
  intros Hd after. subst after. rewrite preload_eq.
  set (tm := heap w !!! toMain) in *. set (tr := heap w !!! toRender).
  exists (exposed tm tr ipcRenderer). cbn [snd globals set_globals].
  rewrite lookup_insert_eq, exposed_caller_lookup by by eapply get_Some_key.
  unfold exposed_caller, twoWay_key. rewrite Hd.
  destruct d as [a r|a]; cbn [type]; eexists; (split; [done|]).
  all: split; [done|].
  all: split; intros Hty; try discriminate Hty; intros arg h; cbn beta.
  - destruct (ipcRenderer_invoke_eq ipcRenderer name arg h) as (p & a' & ->).
    eauto.
  - destruct (ipcRenderer_send_eq ipcRenderer name arg h) as (a' & ->).
    eauto.
Qed.


(** ** Claims about [main.fromRenderer] *)

Lemma fromRenderer_registered_eq handlers t keys h :
  let h' := fromRenderer_registered handlers t keys h in
  app h' = app h ∧
  ipcRenderer_listeners h' = ipcRenderer_listeners h ∧
  ipcMain_handlers h'
  = ipcMain_handlers h
    ++ ((λ key, (key, fromRenderer_listener handlers key))
          <$> filter (λ key, twoWay_key t key = true) keys) ∧
  ipcMain_listeners h'
  = ipcMain_listeners h
    ++ ((λ key, (key, fromRenderer_listener handlers key))
          <$> filter (λ key, twoWay_key t key = false) keys) ∧
  calls h'
  = calls h
    ++ ((λ key, if twoWay_key t key then ipcMain_handle_call key
                else ipcMain_on_call key) <$> keys).
Proof.
  unfold fromRenderer_registered. cbn zeta.
  revert h. induction keys as [|key keys IH]; intros h.
  { cbn. by rewrite !app_nil_r. }
  cbn [foldl]. rewrite !filter_cons, fmap_cons.
  destruct (twoWay_key t key) eqn:Htw.
  all: match goal with |- context [foldl ?f ?h0 ?ks] =>
         destruct (IH h0) as (-> & -> & -> & -> & ->) end.
  all: cbn [app calls ipcMain_handlers ipcMain_listeners
            ipcRenderer_listeners log add_ipcMain_handler
            add_ipcMain_listener].
  all: repeat case_decide; try done.
  all: cbn [fmap list_fmap]; by rewrite <-!app_assoc.
Qed.

(** What the listener of [main.fromRenderer] does with a handler's
    completion: the value is dropped, an exception passes through. *)
Lemma fromRenderer_listener_eq (handlers : gmap string (handler App)) key
    (f : handler App) e arg a :
  handlers !! key = Some f →
  fromRenderer_listener handlers key e arg a
  = match f arg e a with
    | (Normal _, a') => (Normal VUndefined, a')
    | (Throw err, a') => (Throw err, a')
    end.
Proof.
  intros Hf. cbv [fromRenderer_listener call_handler bind ret].
  unfold handler in *. rewrite Hf.
  by destruct (f arg e a) as [[v|err] a'].
Qed.

(** C4. For every key of the renderer-to-main table, [main.fromRenderer]
    registers one listener on the unprefixed name, with [ipcMain.handle]
    when the descriptor is two-way and with [ipcMain.on] when it is
    one-way; the registered listener, called with (event, payload), calls
    the handler of that key with (payload, event), and what the handler
    returns is discarded. *)
Theorem fromRenderer_registers_by_tag toMain handlers ipcMain w :
  let t := heap w !!! toMain in
  let after := main_fromRenderer toMain handlers ipcMain w in
  ∃ hs ls : list (string * listener App),
    after.1 = Normal VUndefined ∧
    ipcMain_handlers (host after.2) = ipcMain_handlers (host w) ++ hs ∧
    ipcMain_listeners (host after.2) = ipcMain_listeners (host w) ++ ls ∧
    hs.*1 = filter (λ key, twoWay_key t key = true) (Object_keys t) ∧
    ls.*1 = filter (λ key, twoWay_key t key = false) (Object_keys t) ∧
    calls (host after.2)
    = calls (host w)
      ++ ((λ key, if twoWay_key t key then ipcMain_handle_call key
                  else ipcMain_on_call key) <$> Object_keys t) ∧
    (∀ key d, get t key = Some d →
       (type d = "twoWay" → key ∈ hs.*1 ∧ key ∉ ls.*1) ∧
       (type d = "oneWay" → key ∈ ls.*1 ∧ key ∉ hs.*1)) ∧
    (∀ key (l : listener App), (key, l) ∈ hs ++ ls →
       ∀ f : handler App, handlers !! key = Some f →
         ∀ e arg a, l e arg a = match f arg e a with
                                | (Normal _, a') => (Normal VUndefined, a')
                                | (Throw err, a') => (Throw err, a')
                                end).
Proof.
  intros t after. subst after. rewrite main_fromRenderer_eq. fold t.
  cbn [fst snd host set_host].
  destruct (fromRenderer_registered_eq handlers t (Object_keys t) (host w))
    as (_ & _ & Hh & Hl & Hc).
  do 2 eexists. split; [done|]. split; [exact Hh|]. split; [exact Hl|].
  rewrite <-!list_fmap_compose.
  assert (∀ ks : list string,
    (fst ∘ (λ key, (key, fromRenderer_listener handlers key))) <$> ks = ks)
    as Hfst by (intros ks; apply list_fmap_id).
  rewrite !Hfst. split_and!; [done|done|exact Hc| |].
  - intros key d Hd. pose proof (get_Some_key _ _ _ Hd) as Hin.
    rewrite !list_elem_of_filter. unfold twoWay_key. rewrite Hd.
    destruct d; cbn; naive_solver.
  - intros key l [Hin|Hin]%elem_of_app f Hf e arg a.
    all: apply list_elem_of_fmap in Hin as (k & [= -> ->] & _).
    all: apply (fromRenderer_listener_eq handlers k f e arg a Hf).
Qed.

(** ** Claims about the main-to-renderer direction *)

Lemma fromMain_registered_eq (handlers : gmap string (callback App)) r keys h :
  let h' := fromMain_registered handlers r keys h in
  app h' = app h ∧
  ipcMain_handlers h' = ipcMain_handlers h ∧
  ipcMain_listeners h' = ipcMain_listeners h ∧
  ipcRenderer_listeners h'
  = ipcRenderer_listeners h
    ++ ((λ key, (r, key, fromMain_listener (call_callback (handlers !! key))))
          <$> keys) ∧
  calls h' = calls h ++ (ipcRenderer_on_call r <$> keys).
Proof.
  unfold fromMain_registered. cbn zeta.
  revert h. induction keys as [|key keys IH]; intros h.
  { cbn. by rewrite !app_nil_r. }
  cbn [foldl]. rewrite !fmap_cons.
  match goal with |- context [foldl ?f ?h0 ?ks] =>
    destruct (IH h0) as (-> & -> & -> & -> & ->) end.
  cbn [app calls ipcMain_handlers ipcMain_listeners ipcRenderer_listeners
       log add_ipcRenderer_listener].
  by rewrite <-!app_assoc.
Qed.

(** C5. For every main-to-renderer entry, the callable [preload] installs
    under ["r_" + name], called with a callback, registers with
    [ipcRenderer.on], on the unprefixed name, a listener that ignores the
    event metadata and calls the callback with the payload alone.
    Consequently, once the bridge is exposed, [renderer.fromMain] registers
    for every entry a listener that hands its handler the payload as its
    only argument. *)
Theorem subscription_passes_payload_only
    ipcKey toMain toRender ipcRenderer contextBridge w0 :
  let tr := heap w0 !!! toRender in
  let w := (preload ipcKey toMain toRender ipcRenderer contextBridge w0).2 in
  ∃ expose : gmap string (bridge_fn App),
    globals w !! (contextBridge, ipcKey) = Some expose ∧
    (∀ name, name ∈ Object_keys tr →
       ∃ subscribe,
         expose !! ("r_" +:+ name) = Some (Subscriber subscribe) ∧
         ∀ (cb : callback App) h, ∃ l : listener App,
           (subscribe cb h).1 = Normal VUndefined ∧
           ipcRenderer_listeners (subscribe cb h).2
           = ipcRenderer_listeners h ++ [(ipcRenderer, name, l)] ∧
           calls (subscribe cb h).2
           = calls h ++ [ipcRenderer_on_call ipcRenderer name] ∧
           ∀ e arg a, l e arg a = cb arg a) ∧
    (∀ handlers : gmap string (callback App),
       let after := renderer_fromMain ipcKey toRender contextBridge handlers w in
       ∃ ls : list (wid * string * listener App),
         after.1 = Normal VUndefined ∧
         ipcRenderer_listeners (host after.2)
         = ipcRenderer_listeners (host w) ++ ls ∧
         ls.*1 = (λ name, (ipcRenderer, name)) <$> Object_keys tr ∧
         ∀ name (l : listener App), (ipcRenderer, name, l) ∈ ls →
           ∀ f : callback App, handlers !! name = Some f →
             ∀ e arg a, l e arg a = f arg a).
Proof.
  intros tr w. subst w. rewrite preload_eq. fold tr.
  set (tm := heap w0 !!! toMain).
  exists (exposed tm tr ipcRenderer). cbn [snd globals set_globals].
  split; [apply lookup_insert_eq|]. split.
  - intros name Hin. rewrite exposed_subscriber_lookup by done.
    eexists. split; [done|]. intros cb h.
    exists (fromMain_listener cb). by rewrite exposed_subscriber_eq.
  - intros handlers.
    erewrite (renderer_fromMain_eq _ _ _ _ tm ipcRenderer);
      [|apply lookup_insert_eq].
    cbn [fst snd host heap set_host set_globals]. fold tr.
    match goal with |- context [fromMain_registered ?hs ?r ?ks ?h] =>
      destruct (fromMain_registered_eq hs r ks h) as (_ & _ & _ & Hl & _) end.
    eexists. split; [done|]. split; [exact Hl|]. split.
    + rewrite <-list_fmap_compose. done.
    + intros name l (k & [= -> ->] & _)%list_elem_of_fmap f Hf e arg a.
      unfold fromMain_listener, call_callback. unfold callback in *.
      by rewrite Hf.
Qed.


(** ** Claims about [renderer.toMain] *)



(** ** Sequences of calls: what every step preserves *)

Lemma on_host_eq {A} (m : ST (Host App) A) w :
  on_host m w = ((m (host w)).1, set_host (m (host w)).2 w).
Proof. unfold on_host, zoom. by destruct (m (host w)). Qed.

#[local] Instance grows_preorder : PreOrder (@grows App).
Proof.
  split.
  - by intros h.
  - intros h1 h2 h3 (? & ? & ?) (? & ? & ?). by split_and!; etrans.
Qed.

#[local] Instance continues_preorder : PreOrder (@continues App).
Proof.
  split.
  - by intros w.
  - intros w1 w2 w3 [Hh1 H1] [Hh2 H2]. split; [congruence|].
    intros Hb. destruct (H1 Hb) as [Hb2 Hg1].
    destruct (H2 Hb2) as [Hb3 Hg2]. split; [done|by etrans].
Qed.

Lemma continues_bind {A B} (m : ST (World App) A) (k : A → ST (World App) B) :
  (∀ w, continues w (m w).2) → (∀ a w, continues w (k a w).2) →
  ∀ w, continues w (bind m k w).2.
Proof.
  intros Hm Hk w. unfold bind. specialize (Hm w).
  destruct (m w) as [[a|e] w']; [|done]. etrans; [exact Hm|apply Hk].
Qed.

Lemma continues_for_of keys (body : string → ST (World App) ()) :
  (∀ key w, continues w (body key w).2) →
  ∀ w, continues w (for_of keys body w).2.
Proof.
  intros Hbody. induction keys as [|key keys IH]; intros w; [done|].
  cbn [for_of]. by apply continues_bind.
Qed.

Lemma continues_on_host {A} (m : ST (Host App) A) w :
  (bridges_only w → grows (host w) (m (host w)).2) →
  continues w (on_host m w).2.
Proof. intros Hg. rewrite on_host_eq. split; [done|]. intros Hb. by split; [|apply Hg]. Qed.

Lemma ipcRenderer_invoke_grows r channel arg h :
  grows h (ipcRenderer_invoke r channel arg h).2.
Proof. by destruct (ipcRenderer_invoke_eq r channel arg h) as (p & a & ->). Qed.

Lemma ipcRenderer_send_grows r channel arg h :
  grows h (ipcRenderer_send r channel arg h).2.
Proof. by destruct (ipcRenderer_send_eq r channel arg h) as (a & ->). Qed.

Lemma webContents_send_grows window channel arg h :
  grows h (webContents_send window channel arg h).2.
Proof. by destruct (webContents_send_eq window channel arg h) as (a & ->). Qed.

(** Where the entries of an object built by assignments come from. *)
Lemma assigned_inv {V} (f : string → string) (g : string → V) keys
    (m0 : gmap string V) name v :
  foldl (λ m key, <[f key := g key]> m) m0 keys !! name = Some v →
  (∃ key, key ∈ keys ∧ name = f key ∧ v = g key) ∨ m0 !! name = Some v.
Proof.
  revert m0. induction keys as [|k keys IH]; intros m0; cbn [foldl]; [by right|].
  intros [(key & ? & ? & ?)|Hm0]%IH.
  - left. exists key. set_solver.
  - apply lookup_insert_Some in Hm0 as [[<- <-]|[_ ?]]; [|by right].
    left. exists k. set_solver.
Qed.

(** The entries of an exposed object add listeners and remove none. *)
Lemma exposed_entry_grows toMain toRender ir name (fn : bridge_fn App) :
  exposed toMain toRender ir !! name = Some fn →
  match fn with
  | Caller f => ∀ arg h, grows h (f arg h).2
  | Subscriber f => ∀ cb h, grows h (f cb h).2
  end.
Proof.
  unfold exposed. intros [(key & _ & _ & ->)|Hm]%assigned_inv.
  { intros cb h. cbn. split_and!; [done|done|by apply prefix_app_r]. }
  apply assigned_inv in Hm as [(key & _ & _ & ->)|Hm]; [|done].
  unfold exposed_caller. destruct (twoWay_key toMain key); intros arg h.
  - apply ipcRenderer_invoke_grows.
  - apply ipcRenderer_send_grows.
Qed.

Lemma continues_call_bridge ipcKey window name arg w :
  continues w (call_bridge ipcKey window name arg w).2.
Proof.
  unfold call_bridge. erewrite bind_normal by reflexivity. cbn beta.
  destruct (globals w !! (window, ipcKey)) as [ns|] eqn:Hns; [|done].
  destruct (ns !! name) as [[f|f]|] eqn:Hf; [|done..].
  apply continues_on_host. intros Hb.
  destruct (Hb _ _ Hns) as (tm & tr & ir & ->).
  apply (exposed_entry_grows _ _ _ _ _ Hf).
Qed.

Lemma continues_subscribe_bridge ipcKey window name cb w :
  continues w (subscribe_bridge ipcKey window name cb w).2.
Proof.
  unfold subscribe_bridge. erewrite bind_normal by reflexivity. cbn beta.
  destruct (globals w !! (window, ipcKey)) as [ns|] eqn:Hns; [|done].
  destruct (ns !! name) as [[f|f]|] eqn:Hf; [done| |done].
  apply continues_on_host. intros Hb.
  destruct (Hb _ _ Hns) as (tm & tr & ir & ->).
  apply (exposed_entry_grows _ _ _ _ _ Hf).
Qed.

Lemma continues_preload ipcKey toMain toRender ir cb w :
  continues w (preload ipcKey toMain toRender ir cb w).2.
Proof.
  rewrite preload_eq. split; [done|]. intros Hb. split; [|done].
  intros k ns Hk. cbn [snd globals set_globals] in Hk.
  apply lookup_insert_Some in Hk as [[<- <-]|[_ Hk]]; [by eauto|].
  by apply (Hb k).
Qed.

Lemma continues_main_fromRenderer toMain handlers ipcMain w :
  continues w (main_fromRenderer toMain handlers ipcMain w).2.
Proof.
  rewrite main_fromRenderer_eq. split; [done|]. intros Hb. split; [done|].
  cbn [snd host set_host].
  match goal with |- context [fromRenderer_registered ?hs ?t ?ks ?h] =>
    destruct (fromRenderer_registered_eq hs t ks h) as (_ & Hr & Hh & Hl & _)
  end.
  split_and!; [rewrite Hh|rewrite Hl|rewrite Hr]; try done.
  all: by apply prefix_app_r.
Qed.

Lemma continues_renderer_fromMain ipcKey toRender window handlers w :
  continues w (renderer_fromMain ipcKey toRender window handlers w).2.
Proof.
  revert w. unfold renderer_fromMain.
  apply continues_bind; [done|]. intros keys.
  apply continues_bind; [|done].
  apply continues_for_of. intros key.
  apply continues_bind; [|done]. intros w. apply continues_subscribe_bridge.
Qed.

(** Every call on a contract continues the world it starts from. *)
Lemma continues_run_call ipcKey toMain toRender c w :
  continues w (run_call (surfaces ipcKey toMain toRender) c w).2.
Proof.
  destruct c as [ir cb|window|handlers ipcMain|window|window handlers
                |window key arg|window key arg];
    cbn [run_call surfaces api_preload api_main_toRenderer
         api_main_fromRenderer api_renderer_toMain api_renderer_fromMain].
  - revert w. apply continues_bind; [|done]. apply continues_preload.
  - rewrite (bind_pure _ _ _ _ (main_toRenderer_eq _ _ _)).
    by destruct (senders _ window).
  - revert w. apply continues_bind; [|done].
    apply continues_main_fromRenderer.
  - rewrite (bind_pure _ _ _ _ (renderer_toMain_eq _ _ _ _)).
    by destruct (callers ipcKey _ window).
  - revert w. apply continues_bind; [|done].
    apply continues_renderer_fromMain.
  - rewrite (bind_pure _ _ _ _ (main_toRenderer_eq _ _ _)).
    destruct (senders _ window) as [s|] eqn:Hs; [|done].
    refine (continues_bind _ _ _ _ w); [|done]. intros w'.
    destruct (s !! key) as [f|] eqn:Hf; [|done].
    destruct (senders_inv _ _ _ _ _ Hs Hf) as (k & _ & ->).
    apply continues_on_host. intros _. apply webContents_send_grows.
  - rewrite (bind_pure _ _ _ _ (renderer_toMain_eq _ _ _ _)).
    destruct (callers ipcKey _ window) as [s|] eqn:Hs; [|done].
    destruct (s !! key) as [f|] eqn:Hf; [|done].
    destruct (callers_inv _ _ _ _ _ _ Hs Hf) as (k & _ & ->).
    cbn [call_method]. refine (continues_bind _ _ _ _ w); [|done].
    intros w'. apply continues_call_bridge.
Qed.

Lemma continues_run_calls ipcKey toMain toRender cs w :
  continues w (run_calls (surfaces ipcKey toMain toRender) cs w).
Proof.
  revert w. induction cs as [|c cs IH]; intros w; [done|].
  unfold run_calls. cbn [foldl]. etrans; [apply continues_run_call|apply IH].
Qed.

(** ** Claims about the registries and the heap *)

Lemma twoWay_split t keys :
  length (filter (λ key, twoWay_key t key = true) keys)
  + length (filter (λ key, twoWay_key t key = false) keys)
  = length keys.
Proof.
  induction keys as [|key keys IH]; [done|].
  rewrite !filter_cons. destruct (twoWay_key t key);
    repeat case_decide; try done; cbn [length]; lia.
Qed.

Lemma fromRenderer_repeated toMain handlers ipcMain n w :
  let wn := Nat.iter n
              (λ w, (main_fromRenderer toMain handlers ipcMain w).2) w in
  ∃ hs ls : list (string * listener App),
    heap wn = heap w ∧
    ipcMain_handlers (host wn) = ipcMain_handlers (host w) ++ hs ∧
    ipcMain_listeners (host wn) = ipcMain_listeners (host w) ++ ls ∧
    length hs + length ls = n * length (heap w !!! toMain).
Proof.
  cbn zeta. induction n as [|n (hs & ls & Hheap & Hh & Hl & Hlen)].
  { exists [], []. by rewrite !app_nil_r. }
  rewrite Nat.iter_succ. set (wn := Nat.iter n _ w) in *.
  rewrite main_fromRenderer_eq. cbn [snd host heap set_host].
  match goal with |- context [fromRenderer_registered ?hs ?t ?ks ?h] =>
    destruct (fromRenderer_registered_eq hs t ks h) as (_ & _ & -> & -> & _)
  end.
  rewrite Hh, Hl, Hheap, <-!app_assoc. do 2 eexists. split_and!; [done..|].
  rewrite !length_app, !length_fmap.
  pose proof (twoWay_split (heap w !!! toMain)
                (Object_keys (heap w !!! toMain))) as Hsplit.
  unfold Object_keys in Hsplit at 3. rewrite length_fmap in Hsplit.
  unfold table in *. lia.
Qed.

Lemma fromMain_repeated ipcKey toMain toRender r handlers n w :
  let wb := (preload ipcKey toMain toRender r r w).2 in
  let wn := Nat.iter n
              (λ w, (renderer_fromMain ipcKey toRender r handlers w).2) wb in
  ∃ ls : list (wid * string * listener App),
    heap wn = heap w ∧ globals wn = globals wb ∧
    ipcRenderer_listeners (host wn) = ipcRenderer_listeners (host wb) ++ ls ∧
    length ls = n * length (heap w !!! toRender).
Proof.
  cbn zeta. rewrite preload_eq. cbn [snd].
  set (wb := set_globals _ _).
  induction n as [|n (ls & Hheap & Hg & Hl & Hlen)].
  { exists []. by rewrite app_nil_r. }
  rewrite Nat.iter_succ. set (wn := Nat.iter n _ wb) in *.
  erewrite (renderer_fromMain_eq _ _ _ _ (heap w !!! toMain) r).
  2: { rewrite Hg, Hheap. apply lookup_insert_eq. }
  cbn [snd host heap globals set_host].
  match goal with |- context [fromMain_registered ?hs ?r ?ks ?h] =>
    destruct (fromMain_registered_eq hs r ks h) as (_ & _ & _ & -> & _)
  end.
  rewrite Hl, Hheap, <-app_assoc. eexists. split_and!; [done..|].
  rewrite length_app, length_fmap. unfold Object_keys.
  rewrite length_fmap. unfold table in *. lia.
Qed.

(** C8. Nothing ever removes a registered listener.  Starting from a world
    whose globals hold only exposed bridges, whatever sequence of calls to
    [preload], [main.toRenderer], [main.fromRenderer], [renderer.toMain]
    and [renderer.fromMain] (and to the methods of the objects they return)
    is made, the three listener registries of the start are initial
    segments of the registries at the end.  Each further call to
    [main.fromRenderer] appends one registration per renderer-to-main
    entry, and, once the bridge is exposed, each further call to
    [renderer.fromMain] appends one per main-to-renderer entry. *)
Theorem listeners_only_accumulate ipcKey toMain toRender w :
  bridges_only w →
  (∀ cs,
     grows (host w)
       (host (run_calls (surfaces ipcKey toMain toRender) cs w))) ∧
  (∀ handlers ipcMain n,
     let wn := Nat.iter n
                 (λ w, (main_fromRenderer toMain handlers ipcMain w).2) w in
     ∃ hs ls : list (string * listener App),
       ipcMain_handlers (host wn) = ipcMain_handlers (host w) ++ hs ∧
       ipcMain_listeners (host wn) = ipcMain_listeners (host w) ++ ls ∧
       length hs + length ls = n * length (heap w !!! toMain)) ∧
  (∀ r handlers n,
     let wb := (preload ipcKey toMain toRender r r w).2 in
     let wn := Nat.iter n
                 (λ w, (renderer_fromMain ipcKey toRender r handlers w).2)
                 wb in
     ∃ ls : list (wid * string * listener App),
       ipcRenderer_listeners (host wn)
       = ipcRenderer_listeners (host wb) ++ ls ∧
       length ls = n * length (heap w !!! toRender)).
Proof.
  intros Hb. split_and!.
  - intros cs.
    by destruct (continues_run_calls ipcKey toMain toRender cs w)
      as [_ [_ ?]].
  - intros handlers ipcMain n.
    destruct (fromRenderer_repeated toMain handlers ipcMain n w)
      as (hs & ls & _ & ? & ? & ?).
    by exists hs, ls.
  - intros r handlers n.
    destruct (fromMain_repeated ipcKey toMain toRender r handlers n w)
      as (ls & _ & _ & ? & ?).
    by exists ls.
Qed.

Lemma alloc_eq t w :
  let l := fresh (dom (heap w)) in
  alloc t w = (Normal l, set_heap (<[l := t]> (heap w)) w)
  ∧ heap w !! l = None.
Proof. split; [done|]. apply not_elem_of_dom, is_fresh. Qed.

Lemma createIpcApi_eq props w :
  ∃ toMain toRender w',
    createIpcApi props w
    = (Normal (surfaces (CreateIpcApiProps.ipcKey props) toMain toRender), w')
    ∧ host w' = host w ∧ globals w' = globals w ∧ heap w ⊆ heap w'
    ∧ (is_Some (CreateIpcApiProps.toMain props) →
       is_Some (CreateIpcApiProps.toRenderer props) → w' = w).
Proof.
  unfold createIpcApi.
  destruct props as [key [tm|] [tr|]]; cbn [CreateIpcApiProps.ipcKey
    CreateIpcApiProps.toMain CreateIpcApiProps.toRenderer].
  - exists tm, tr, w. done.
  - destruct (alloc_eq [] w) as [Ha Hfresh].
    do 3 eexists. erewrite bind_normal by reflexivity.
    erewrite bind_normal by apply Ha. split; [reflexivity|].
    split_and!; [done|done|by apply insert_subseteq|].
    by intros _ [? [=]].
  - destruct (alloc_eq [] w) as [Ha Hfresh].
    do 3 eexists. erewrite bind_normal by apply Ha.
    erewrite bind_normal by reflexivity. split; [reflexivity|].
    split_and!; [done|done|by apply insert_subseteq|].
    by intros [? [=]].
  - destruct (alloc_eq [] w) as [Ha Hfresh].
    set (w1 := set_heap _ w) in Ha.
    destruct (alloc_eq [] w1) as [Ha1 Hfresh1].
    do 3 eexists. erewrite bind_normal by apply Ha.
    erewrite bind_normal by apply Ha1. split; [reflexivity|].
    split_and!; [done|done| |by intros [? [=]]].
    cbn [heap set_heap]. etrans; [by apply insert_subseteq|].
    by apply insert_subseteq.
Qed.

(** C10. [createIpcApi] has no effect one can observe: it returns the
    contract and leaves the host untouched (no transport primitive called,
    nothing registered, the application state as it was), the renderers'
    globals untouched, and every object already on the heap as it was; when
    both tables are given nothing changes at all.  And no sequence of calls
    on the returned contract changes the heap: the API tables and their
    descriptors read afterwards are the tables as declared. *)
Theorem createIpcApi_and_surfaces_leave_tables props w :
  ∃ api w',
    createIpcApi props w = (Normal api, w') ∧
    host w' = host w ∧ globals w' = globals w ∧ heap w ⊆ heap w' ∧
    (is_Some (CreateIpcApiProps.toMain props) →
     is_Some (CreateIpcApiProps.toRenderer props) → w' = w) ∧
    ∀ cs w1,
      heap (run_calls api cs w1) = heap w1 ∧
      ∀ l : loc, heap (run_calls api cs w1) !!! l = (heap w1 !!! l : table).
Proof.
  destruct (createIpcApi_eq props w)
    as (toMain & toRender & w' & -> & Hh & Hg & Hheap & Hsame).
  do 2 eexists. split; [reflexivity|]. split_and!; [done..|].
  intros cs w1.
  destruct (continues_run_calls (CreateIpcApiProps.ipcKey props)
              toMain toRender cs w1) as [-> _].
  done.
Qed.

(** ** Claims about the descriptors *)

Lemma tags_keys t : (tags t).*1 = Object_keys t.
Proof. unfold tags, Object_keys. by rewrite <-list_fmap_compose. Qed.

Lemma tags_type t key :
  type <$> get t key = (list_to_map (tags t) : gmap string string) !! key.
Proof.
  unfold get, tags. induction t as [|[k d] t IH]; [done|].
  cbn [fmap list_fmap list_to_map foldr fst snd curry].
  rewrite !lookup_insert. by case_decide.
Qed.

Lemma reads_tags_only_ret {A} (a : A) :
  reads_tags_only (ret a : ST (World App) A).
Proof. by intros w1 w2 H. Qed.

Lemma reads_tags_only_throw {A} e :
  reads_tags_only (throw e : ST (World App) A).
Proof. by intros w1 w2 H. Qed.

Lemma reads_tags_only_bind {A B} (m : ST (World App) A)
    (k : A → ST (World App) B) :
  reads_tags_only m → (∀ a, reads_tags_only (k a)) →
  reads_tags_only (bind m k).
Proof.
  intros Hm Hk w1 w2 H. unfold bind. destruct (Hm w1 w2 H) as [Hr Hs].
  destruct (m w1) as [[a1|e1] w1'], (m w2) as [[a2|e2] w2'];
    cbn [fst snd] in *; simplify_eq; [by apply Hk|done].
Qed.

Lemma reads_tags_only_for_of keys (body : string → ST (World App) ()) :
  (∀ key, reads_tags_only (body key)) → reads_tags_only (for_of keys body).
Proof.
  intros Hbody. induction keys as [|key keys IH]; cbn [for_of].
  - apply reads_tags_only_ret.
  - by apply reads_tags_only_bind.
Qed.

Lemma reads_tags_only_for_of_var {X} keys (x : X)
    (body : X → string → ST (World App) X) :
  (∀ x key, reads_tags_only (body x key)) →
  reads_tags_only (for_of_var keys x body).
Proof.
  intros Hbody. revert x. induction keys as [|key keys IH]; intros x;
    cbn [for_of_var].
  - apply reads_tags_only_ret.
  - by apply reads_tags_only_bind.
Qed.

Lemma reads_tags_only_keys_at l : reads_tags_only (@keys_at App l).
Proof.
  intros w1 w2 H. split; [|done]. destruct H as (_ & _ & _ & Ht).
  cbn. by rewrite <-!tags_keys, Ht.
Qed.

Lemma reads_tags_only_type_at l key : reads_tags_only (@type_at App l key).
Proof.
  intros w1 w2 H. pose proof H as (_ & _ & _ & Ht).
  pose proof (tags_type (heap w1 !!! l) key) as H1.
  rewrite Ht, <-tags_type in H1.
  unfold type_at, bind, gets. cbn.
  destruct (get (heap w1 !!! l) key), (get (heap w2 !!! l) key);
    simplify_eq/=; [by rewrite H1|done].
Qed.

Lemma reads_tags_only_on_host {A} (m : ST (Host App) A) :
  reads_tags_only (on_host m).
Proof.
  intros w1 w2 H. rewrite !on_host_eq. pose proof H as (Hh & Hg & Hd & Ht).
  rewrite Hh. done.
Qed.

Lemma reads_tags_only_globals {A} (f : gmap (wid * string)
      (gmap string (bridge_fn App)) → A) :
  reads_tags_only (gets (λ w, f (globals w))).
Proof. intros w1 w2 H. pose proof H as (_ & Hg & _). cbn. by rewrite Hg. Qed.

Lemma reads_tags_only_expose r apiKey (api : gmap string (bridge_fn App)) :
  reads_tags_only (contextBridge_exposeInMainWorld r apiKey api).
Proof.
  intros w1 w2 (Hh & Hg & Hd & Ht). cbn. by rewrite Hh, Hg.
Qed.

Lemma reads_tags_only_call_bridge ipcKey window name arg :
  reads_tags_only (@call_bridge App ipcKey window name arg).
Proof.
  unfold call_bridge. apply reads_tags_only_bind.
  { apply (reads_tags_only_globals (λ g, g !! (window, ipcKey))). }
  intros [ns|]; [|apply reads_tags_only_throw].
  destruct (ns !! name) as [[f|f]|].
  - apply reads_tags_only_on_host.
  - apply reads_tags_only_throw.
  - apply reads_tags_only_throw.
Qed.

Lemma reads_tags_only_subscribe_bridge ipcKey window name
    (cb : callback App) :
  reads_tags_only (subscribe_bridge ipcKey window name cb).
Proof.
  unfold subscribe_bridge. apply reads_tags_only_bind.
  { apply (reads_tags_only_globals (λ g, g !! (window, ipcKey))). }
  intros [ns|]; [|apply reads_tags_only_throw].
  destruct (ns !! name) as [[f|f]|].
  - apply reads_tags_only_throw.
  - apply reads_tags_only_on_host.
  - apply reads_tags_only_throw.
Qed.

Lemma reads_tags_only_assign_to {F} (o : JsObject F) key (f : F) :
  reads_tags_only (@assign_to (World App) F o key f).
Proof. by intros w1 w2 H. Qed.

Create HintDb tags_only.

#[local] Hint Resolve reads_tags_only_ret reads_tags_only_throw
  reads_tags_only_assign_to reads_tags_only_keys_at reads_tags_only_type_at reads_tags_only_on_host
  reads_tags_only_expose reads_tags_only_call_bridge
  reads_tags_only_subscribe_bridge : tags_only.

Ltac tags_only :=
  repeat match goal with
    | |- ∀ _, _ => intro
    | |- reads_tags_only (if ?b then _ else _) => destruct b
    | |- reads_tags_only (call_method ?f _) => destruct f; cbn [call_method]
    | |- reads_tags_only (bind _ _) => apply reads_tags_only_bind
    | |- reads_tags_only (for_of _ _) => apply reads_tags_only_for_of
    | |- reads_tags_only (for_of_var _ _ _) =>
        apply reads_tags_only_for_of_var
    | |- reads_tags_only _ => solve [auto with tags_only]
    end.

Lemma reads_tags_only_use_toMain ipcKey toMain window key arg :
  reads_tags_only
    (s <- @renderer_toMain App ipcKey toMain window ;;
     v <- call_method (s !! key) arg ;;
     ret (returned v : SurfaceResult App)).
Proof.
  intros w1 w2 H. pose proof H as (_ & _ & _ & Ht).
  rewrite !(bind_pure _ _ _ _ (renderer_toMain_eq _ _ _ _)).
  unfold callers. rewrite <-!tags_keys, Ht, tags_keys.
  fold (@callers App ipcKey (heap w2 !!! toMain) window).
  destruct (callers _ _ window) as [s|] eqn:Hs; [|done].
  destruct (s !! key) as [f|] eqn:Hf; [|done].
  destruct (callers_inv _ _ _ _ _ _ Hs Hf) as (k & _ & ->).
  cbn [call_method]. unfold toMain_method. clear Ht Hs Hf.
  revert w1 w2 H.
  change (reads_tags_only
    (v <- @call_bridge App ipcKey window ("m_" +:+ k) arg ;;
     ret (returned v : SurfaceResult App))).
  tags_only.
Qed.

Lemma reads_tags_only_run_call ipcKey toMain toRender (c : SurfaceCall App) :
  reads_tags_only (run_call (surfaces ipcKey toMain toRender) c).
Proof.
  destruct c; cbn [run_call surfaces api_preload api_main_toRenderer
    api_main_fromRenderer api_renderer_toMain api_renderer_fromMain];
    try apply reads_tags_only_use_toMain;
    unfold preload, main_toRenderer, main_fromRenderer, renderer_toMain,
      renderer_fromMain.
  all: tags_only.
Qed.

Lemma reads_tags_only_alloc t : reads_tags_only (@alloc App t).
Proof.
  intros w1 w2 (Hh & Hg & Hd & Ht). unfold alloc, bind, gets, modify.
  cbn. rewrite Hd. split; [done|]. split_and!; [done|done| |].
  - cbn. by rewrite !dom_insert_L, Hd.
  - intros l. cbn.
    destruct (decide (fresh (dom (heap w2)) = l)) as [<-|Hne].
    + by rewrite !lookup_total_insert_eq.
    + by rewrite !lookup_total_insert_ne.
Qed.

Lemma reads_tags_only_createIpcApi props :
  reads_tags_only (@createIpcApi App props).
Proof.
  unfold createIpcApi.
  destruct props as [key [tm|] [tr|]]; cbn [CreateIpcApiProps.ipcKey
    CreateIpcApiProps.toMain CreateIpcApiProps.toRenderer].
  all: pose proof reads_tags_only_alloc; tags_only.
Qed.

(** C9. The descriptor factories take no argument and always return the
    same descriptor: tagged ["twoWay"] with [arg] and [result] null, tagged
    ["oneWay"] with [arg] null and no [result].  No surface reads the
    placeholder fields: on two worlds that differ only in the [arg] and
    [result] fields of the descriptors on their heaps, every call on a
    contract completes with the same result and leaves worlds that again
    differ in those fields only, and so does [createIpcApi]. *)
Theorem factories_return_tagged_placeholders :
  (∀ u, twoWayAction u = IpcTwoWayAction VNull VNull) ∧
  type (twoWayAction ()) = "twoWay" ∧
  arg (twoWayAction ()) = VNull ∧
  result (twoWayAction ()) = Some VNull ∧
  (∀ u, oneWayAction u = IpcOneWayAction VNull) ∧
  type (oneWayAction ()) = "oneWay" ∧
  arg (oneWayAction ()) = VNull ∧
  result (oneWayAction ()) = None ∧
  ∀ ipcKey toMain toRender c props (w1 w2 : World App),
    same_tags w1 w2 →
    let api := surfaces ipcKey toMain toRender in
    (run_call api c w1).1 = (run_call api c w2).1 ∧
    same_tags (run_call api c w1).2 (run_call api c w2).2 ∧
    (createIpcApi props w1).1 = (createIpcApi props w2).1 ∧
    same_tags (createIpcApi props w1).2 (createIpcApi props w2).2.
Proof.
  split_and!; try done.
  intros ipcKey toMain toRender c props w1 w2 H. cbn zeta.
  destruct (reads_tags_only_run_call ipcKey toMain toRender c w1 w2 H).
  destruct (reads_tags_only_createIpcApi props w1 w2 H).
  done.
Qed.

End Proofs.

(** * The README's application, run *)

(** C1. The response of a two-way action is not what the handler returns.
    In the README's application the handler of [fetchData] resolves to
    [{ name: "Item 42" }] for [{ id: 42 }]; the listener
    [main.fromRenderer] registered with [ipcMain.handle] calls it and
    returns [undefined]; and [toMain.fetchData({ id: 42 })] resolves to
    [undefined]. *)
Theorem fetchData_resolves_to_undefined :
  let request := VObj [("id", VNum 42)] in
  let e := {| sender := Readme.win |} in
  let registered :=
    (main_fromRenderer 0 Readme.main_handlers () Readme.start).2 in
  (call_handler Readme.main_handlers "fetchData" request e []).1
  = Normal (VPromise (Fulfilled (VObj [("name", VStr "Item 42")]))) ∧
  (λ l : listener Readme.Console, (l e request []).1)
    <$> on_channel "fetchData" (ipcMain_handlers (host registered))
  = [Normal VUndefined] ∧
  (Readme.fetchData_42 Readme.start).1
  = Normal (VPromise (Fulfilled VUndefined)).
Proof. cbv zeta. split_and!; vm_compute; reflexivity. Qed.

(** The one-way paths of the same application deliver: after the session
    the handlers have printed the two one-way messages, each once, with
    the payload that was sent. *)
Example one_way_messages_arrive :
  app (host (run_calls (surfaces "myIpc" 0 1) Readme.session Readme.start))
  = [("Renderer says:", VStr "Hello main!");
     ("Main says:", VStr "Hello from main!")].
Proof. vm_compute. reflexivity. Qed.

(** The transport calls of the session, in order: channels carry the
    unprefixed names. *)
Example session_transport_calls :
  calls (host (run_calls (surfaces "myIpc" 0 1) Readme.session Readme.start))
  = [ exposeInMainWorld_call 1 "myIpc";
      ipcMain_on_call "logMessage";
      ipcMain_handle_call "fetchData";
      ipcRenderer_on_call 1 "notify";
      ipcRenderer_send_call 1 "logMessage" (VStr "Hello main!");
      ipcRenderer_invoke_call 1 "fetchData" (VObj [("id", VNum 42)]);
      webContents_send_call 1 "notify" (VStr "Hello from main!");
      ipcMain_on_call "logMessage";
      ipcMain_handle_call "fetchData";
      ipcRenderer_on_call 1 "notify" ].
Proof. vm_compute. reflexivity. Qed.

(** C3 at the README's [fetchData]. *)
Lemma preload_caller_dispatches_on_tag_witness :
  get (heap Readme.start !!! 0) "fetchData" = Some (twoWayAction ()) ∧
  ∃ expose f,
    globals (preload "myIpc" 0 1 Readme.win Readme.win Readme.start).2
      !! (Readme.win, "myIpc") = Some expose ∧
    expose !! "m_fetchData" = Some (Caller f) ∧
    ∀ arg h,
      f arg h = ipcRenderer_invoke Readme.win "fetchData" arg h ∧
      (∃ p, (f arg h).1 = Normal (VPromise p)) ∧
      calls (f arg h).2
      = calls h ++ [ipcRenderer_invoke_call Readme.win "fetchData" arg].
Proof.
  assert (get (heap Readme.start !!! 0) "fetchData" = Some (twoWayAction ()))
    as Hget by (vm_compute; reflexivity).
  split; [exact Hget|].
  destruct (preload_caller_dispatches_on_tag
              "myIpc" 0 1 Readme.win Readme.win Readme.start
              "fetchData" (twoWayAction ()) Hget)
    as (expose & f & Hns & Hf & Htwo & _).
  exists expose, f. split; [exact Hns|]. split; [exact Hf|].
  exact (Htwo eq_refl).
Defined.


(** A table that declares [__proto__] alone: the object
    [main.toRenderer] returns has no property of its own, and reads the
    sender of [__proto__] through its prototype. *)
Example proto_entry_becomes_prototype :
  let w := set_heap {[ 1 := [("__proto__", oneWayAction ())] ]} Readme.start in
  ∃ api,
    main_toRenderer 1 Readme.win w = (Normal api, w) ∧
    own api = ∅ ∧
    ∃ send, api !! "__proto__" = Some send ∧
      calls (send (VStr "hi") (host w)).2
      = [webContents_send_call Readme.win "__proto__" (VStr "hi")].
Proof.
  cbv zeta. eexists. split; [vm_compute; reflexivity|].
  split; [reflexivity|]. eexists. split; [reflexivity|].
  vm_compute. reflexivity.
Qed.




Lemma bridges_only_start : bridges_only Readme.start.
Proof.
  intros k ns Hk. cbn [globals Readme.start] in Hk.
  rewrite lookup_empty in Hk. discriminate Hk.
Defined.

(** C8 on that Readme.session. *)
Lemma listeners_only_accumulate_witness :
  bridges_only Readme.start ∧
  grows (host Readme.start)
    (host (run_calls (surfaces "myIpc" 0 1) Readme.session Readme.start)) ∧
  length (ipcMain_handlers
            (host (run_calls (surfaces "myIpc" 0 1) Readme.session Readme.start)))
  = 2 ∧
  length (ipcRenderer_listeners
            (host (run_calls (surfaces "myIpc" 0 1) Readme.session Readme.start)))
  = 2.
Proof.
  split; [exact bridges_only_start|]. split.
  - exact (proj1 (listeners_only_accumulate "myIpc" 0 1 Readme.start
                    bridges_only_start) Readme.session).
  - split; vm_compute; reflexivity.
Defined.

Lemma same_tags_start : same_tags Readme.start Readme.start_with_payloads.
Proof.
  split; [reflexivity|]. split; [reflexivity|]. split.
  - vm_compute. reflexivity.
  - intros l. unfold Readme.start_with_payloads, Readme.start.
    cbn [heap set_heap].
    destruct (decide (l = 0)) as [->|H0]; [reflexivity|].
    destruct (decide (l = 1)) as [->|H1]; [reflexivity|].
    rewrite !lookup_total_insert_ne by done.
    rewrite !lookup_total_singleton_ne by done. reflexivity.
Defined.

(** C9 on the README's application: [preload] and [main.fromRenderer]
    cannot tell the two heaps apart. *)
Lemma factories_return_tagged_placeholders_witness :
  same_tags Readme.start Readme.start_with_payloads ∧
  (run_call (surfaces "myIpc" 0 1)
     (call_fromRenderer Readme.main_handlers ()) Readme.start).1
  = (run_call (surfaces "myIpc" 0 1)
       (call_fromRenderer Readme.main_handlers ()) Readme.start_with_payloads).1 ∧
  same_tags
    (run_call (surfaces "myIpc" 0 1)
       (call_fromRenderer Readme.main_handlers ()) Readme.start).2
    (run_call (surfaces "myIpc" 0 1)
       (call_fromRenderer Readme.main_handlers ()) Readme.start_with_payloads).2.
Proof.
  split; [exact same_tags_start|].
  destruct (@factories_return_tagged_placeholders Readme.Console)
    as (_ & _ & _ & _ & _ & _ & _ & _ & Hreads).
  destruct (Hreads "myIpc" 0 1 (call_fromRenderer Readme.main_handlers ())
              Readme.props Readme.start Readme.start_with_payloads
              same_tags_start) as (Hresult & Hworlds & _).
  split; [exact Hresult|exact Hworlds].
Defined.

(** * Further properties of the surfaces *)

Section More.
Context {App : Type}.
Implicit Types (w : World App) (h : Host App) (t : table).
Implicit Types (key name : string) (keys : list string).

(** ** Handler objects that miss an entry *)

Lemma with_inherited_None {F} (owned inherited : gmap string F) key :
  owned !! key = None → inherited !! key = None →
  with_inherited owned inherited !! key = None.
Proof. intros. by apply lookup_union_None. Qed.

(** A function the handler object inherits under the name of an entry is
    what the listener calls. *)
Lemma fromRenderer_listener_inherited
    (owned inherited : gmap string (handler App)) key (f : handler App)
    e arg a :
  owned !! key = None → inherited !! key = Some f →
  fromRenderer_listener (with_inherited owned inherited) key e arg a
  = match f arg e a with
    | (Normal _, a') => (Normal VUndefined, a')
    | (Throw x, a') => (Throw x, a')
    end.
Proof.
  intros Ho Hi.
  assert (with_inherited owned inherited !! key = Some f) as Hf.
  { unfold with_inherited. by rewrite (lookup_union_r _ _ _ Ho). }
  cbv [fromRenderer_listener call_handler bind ret throw].
  unfold handler in *. rewrite Hf. by destruct (f arg e a) as [[]].
Qed.

Lemma fromRenderer_listener_missing (handlers : gmap string (handler App))
    key e arg a :
  handlers !! key = None →
  fromRenderer_listener handlers key e arg a = (Throw TypeError, a).
Proof.
  intros Hf. cbv [fromRenderer_listener call_handler bind ret throw].
  unfold handler in *. by rewrite Hf.
Qed.

(** X1. [main.fromRenderer] does not check the handler object: for a name
    of the table under which the object has no function, neither its own
    nor an inherited one, it registers a listener all the same and returns
    normally; that listener, reading the object as it was passed, throws a
    TypeError whenever the transport calls it, and leaves the application
    state alone. *)
Theorem fromRenderer_registers_without_handler
    toMain (owned inherited : gmap string (handler App)) ipcMain w name :
  name ∈ Object_keys (heap w !!! toMain) →
  owned !! name = None → inherited !! name = None →
  let handlers := with_inherited owned inherited in
  let after := main_fromRenderer toMain handlers ipcMain w in
  ∃ hs ls : list (string * listener App),
    after.1 = Normal VUndefined ∧
    ipcMain_handlers (host after.2) = ipcMain_handlers (host w) ++ hs ∧
    ipcMain_listeners (host after.2) = ipcMain_listeners (host w) ++ ls ∧
    name ∈ (hs ++ ls).*1 ∧
    ∀ l : listener App, (name, l) ∈ hs ++ ls →
      ∀ e arg a, l e arg a = (Throw TypeError, a).
Proof.
  intros Hin Howned Hinherited handlers after.
  assert (handlers !! name = None) as Hnone
    by by apply with_inherited_None.
  clearbody handlers. subst after. rewrite main_fromRenderer_eq.
  set (t := heap w !!! toMain) in *. cbn [fst snd host set_host].
  destruct (fromRenderer_registered_eq handlers t (Object_keys t) (host w))
    as (_ & _ & Hh & Hl & _).
  do 2 eexists. split; [done|]. split; [exact Hh|]. split; [exact Hl|]. split.
  - rewrite fmap_app, <-!list_fmap_compose, elem_of_app.
    rewrite !list_elem_of_fmap.
    destruct (twoWay_key t name) eqn:Htw; [left|right]; exists name;
      (split; [done|]); by apply list_elem_of_filter.
  - intros l [H|H]%elem_of_app e arg a.
    all: apply list_elem_of_fmap in H as (k & [= -> ->] & _).
    all: by apply fromRenderer_listener_missing.
Qed.


(** ** [renderer.fromMain] and the bridge *)

Lemma subscribe_bridge_missing ipcKey window name (cb : callback App) w :
  globals w !! (window, ipcKey) = None →
  subscribe_bridge ipcKey window name cb w = (Throw TypeError, w).
Proof.
  intros Hns. unfold subscribe_bridge.
  erewrite bind_normal by reflexivity. cbn beta. by rewrite Hns.
Qed.

(** X2. Unlike [renderer.toMain], [renderer.fromMain] looks the bridge up
    while it runs.  Where no namespace object is installed under the key it
    throws a TypeError at the first entry of the main-to-renderer table and
    has registered nothing; with an empty table it never reaches the lookup
    and returns normally. *)
Theorem fromMain_throws_without_bridge
    ipcKey toRender window (handlers : gmap string (callback App)) w :
  globals w !! (window, ipcKey) = None →
  renderer_fromMain ipcKey toRender window handlers w
  = (match Object_keys (heap w !!! toRender) with
     | [] => Normal VUndefined
     | _ :: _ => Throw TypeError
     end, w).
Proof.
  intros Hns. unfold renderer_fromMain.
  erewrite bind_normal by apply keys_at_eq.
  destruct (Object_keys (heap w !!! toRender)) as [|key keys]; [done|].
  cbn [for_of]. unfold bind at 1 2 3.
  by rewrite subscribe_bridge_missing.
Qed.

Lemma fromMain_listener_missing (handlers : gmap string (callback App))
    key e arg a :
  handlers !! key = None →
  fromMain_listener (call_callback (handlers !! key)) e arg a
  = (Throw TypeError, a).
Proof.
  intros Hf. unfold fromMain_listener, call_callback.
  unfold callback in *. by rewrite Hf.
Qed.

(** X3. Once the bridge is exposed, [renderer.fromMain] does not check the
    handler object either: it returns normally and registers one listener
    per entry, and the listener of an entry under whose name the object
    had no function, neither its own nor an inherited one, throws a
    TypeError whenever a message arrives. *)
Theorem fromMain_registers_without_handler
    ipcKey toMain toRender ipcRenderer contextBridge
    (owned inherited : gmap string (callback App)) w0 name :
  name ∈ Object_keys (heap w0 !!! toRender) →
  owned !! name = None → inherited !! name = None →
  let handlers := with_inherited owned inherited in
  let w := (preload ipcKey toMain toRender ipcRenderer contextBridge w0).2 in
  let after := renderer_fromMain ipcKey toRender contextBridge handlers w in
  ∃ ls : list (wid * string * listener App),
    after.1 = Normal VUndefined ∧
    ipcRenderer_listeners (host after.2)
    = ipcRenderer_listeners (host w) ++ ls ∧
    length ls = length (heap w0 !!! toRender : table) ∧
    (ipcRenderer, name) ∈ ls.*1 ∧
    ∀ l : listener App, (ipcRenderer, name, l) ∈ ls →
      ∀ e arg a, l e arg a = (Throw TypeError, a).
Proof.
  intros Hin Howned Hinherited handlers w after.
  assert (handlers !! name = None) as Hnone
    by by apply with_inherited_None.
  clearbody handlers. subst after w. rewrite preload_eq.
  set (tm := heap w0 !!! toMain). set (tr := heap w0 !!! toRender) in *.
  cbn [snd].
  erewrite (renderer_fromMain_eq _ _ _ _ tm ipcRenderer);
    [|apply lookup_insert_eq].
  cbn [fst snd host heap set_host set_globals]. fold tr.
  match goal with |- context [fromMain_registered ?hs ?r ?ks ?h] =>
    destruct (fromMain_registered_eq hs r ks h) as (_ & _ & _ & Hl & _) end.
  eexists. split; [done|]. split; [exact Hl|]. split_and!.
  - rewrite length_fmap. unfold Object_keys. by rewrite length_fmap.
  - rewrite <-list_fmap_compose. apply list_elem_of_fmap. by exists name.
  - intros l (k & [= -> ->] & _)%list_elem_of_fmap e arg a.
    by apply fromMain_listener_missing.
Qed.

(** ** [renderer.toMain] and [preload] together *)

Lemma call_bridge_exposed ipcKey window toMain toRender ir name arg w :
  globals w !! (window, ipcKey) = Some (exposed toMain toRender ir) →
  name ∈ Object_keys toMain →
  call_bridge ipcKey window ("m_" +:+ name) arg w
  = if twoWay_key toMain name
    then on_host (ipcRenderer_invoke ir name arg) w
    else on_host (ipcRenderer_send ir name arg) w.
Proof.
  intros Hns Hin. unfold call_bridge.
  erewrite bind_normal by reflexivity. cbn beta. rewrite Hns.
  rewrite exposed_caller_lookup by done. unfold exposed_caller.
  by destruct (twoWay_key toMain name).
Qed.

(** X4. For a table that has no entry named [__proto__]: the methods of
    the object [renderer.toMain()] returns look the bridge up at every
    call, so the object may be obtained before [preload] has run and is
    the same object afterwards.  Once [preload] has exposed the bridge in
    that renderer, the method of a two-way entry is
    [ipcRenderer.invoke(name, arg)] and the method of a one-way entry is
    [ipcRenderer.send(name, arg)], on the [ipcRenderer] given to
    [preload]. *)
Theorem toMain_methods_bind_late
    ipcKey toMain toRender ipcRenderer window w0 name d :
  "__proto__" ∉ Object_keys (heap w0 !!! toMain) →
  get (heap w0 !!! toMain) name = Some d →
  let w := (preload ipcKey toMain toRender ipcRenderer window w0).2 in
  ∃ (api : JsObject (value → ST (World App) value)) call,
    renderer_toMain ipcKey toMain window w0 = (Normal api, w0) ∧
    renderer_toMain ipcKey toMain window w = (Normal api, w) ∧
    own api !! name = Some call ∧
    api !! name = Some call ∧
    ∀ arg w',
      globals w' !! (window, ipcKey) = globals w !! (window, ipcKey) →
      (type d = "twoWay" →
       call arg w' = on_host (ipcRenderer_invoke ipcRenderer name arg) w') ∧
      (type d = "oneWay" →
       call arg w' = on_host (ipcRenderer_send ipcRenderer name arg) w').
Proof.
  intros Hnot Hd w. subst w. rewrite preload_eq. cbn [snd].
  set (tm := heap w0 !!! toMain) in *. set (tr := heap w0 !!! toRender).
  pose proof (get_Some_key _ _ _ Hd) as Hin.
  rewrite !renderer_toMain_eq. cbn [heap set_globals set_host]. fold tm.
  rewrite callers_plain by done.
  assert (methods (toMain_method (App:=App) ipcKey window) (Object_keys tm)
            !! name = Some (toMain_method ipcKey window name)) as Hown
    by by apply methods_lookup.
  do 2 eexists. split; [done|]. split; [done|].
  split; [exact Hown|]. split; [by apply JsObject_lookup_own|].
  intros arg w' Hns. cbn [globals set_globals] in Hns.
  rewrite lookup_insert_eq in Hns. unfold toMain_method.
  rewrite (call_bridge_exposed _ _ _ _ _ _ _ _ Hns Hin).
  unfold twoWay_key. rewrite Hd. by destruct d.
Qed.

(** ** What [preload] does itself *)

(** X5. [preload] never throws and makes exactly one transport call,
    [contextBridge.exposeInMainWorld(ipcKey, expose)]: it registers no
    listener, sends nothing, runs no application code, leaves the heap as
    it is, and changes no global but the one under [ipcKey] of the renderer
    of [contextBridge]. *)
Theorem preload_only_exposes
    ipcKey toMain toRender ipcRenderer contextBridge w :
  let after := preload ipcKey toMain toRender ipcRenderer contextBridge w in
  after.1 = Normal VUndefined ∧
  calls (host after.2)
  = calls (host w) ++ [exposeInMainWorld_call contextBridge ipcKey] ∧
  ipcMain_handlers (host after.2) = ipcMain_handlers (host w) ∧
  ipcMain_listeners (host after.2) = ipcMain_listeners (host w) ∧
  ipcRenderer_listeners (host after.2) = ipcRenderer_listeners (host w) ∧
  app (host after.2) = app (host w) ∧
  heap after.2 = heap w ∧
  ∀ k, k ≠ (contextBridge, ipcKey) → globals after.2 !! k = globals w !! k.
Proof.
  cbn zeta. rewrite preload_eq. cbn. split_and!; try done.
  intros k Hk. by apply lookup_insert_ne.
Qed.

(** ** Tables left out of [createIpcApi] *)

Lemma set_host_id w : set_host (host w) w = w.
Proof. by destruct w. Qed.

Lemma createIpcApi_tables props w :
  ∃ toMain toRender w',
    @createIpcApi App props w
    = (Normal (surfaces (CreateIpcApiProps.ipcKey props) toMain toRender), w')
    ∧ (CreateIpcApiProps.toMain props = None →
       (heap w' !!! toMain : table) = []) ∧
    (CreateIpcApiProps.toRenderer props = None →
     (heap w' !!! toRender : table) = []).
Proof.
  unfold createIpcApi.
  destruct props as [key [tm|] [tr|]]; cbn [CreateIpcApiProps.ipcKey
    CreateIpcApiProps.toMain CreateIpcApiProps.toRenderer].
  - exists tm, tr, w. done.
  - destruct (alloc_eq [] w) as [Ha Hfresh].
    do 3 eexists. erewrite bind_normal by reflexivity.
    erewrite bind_normal by apply Ha. split; [reflexivity|].
    split; [done|]. intros _. cbn. by rewrite lookup_total_insert_eq.
  - destruct (alloc_eq [] w) as [Ha Hfresh].
    do 3 eexists. erewrite bind_normal by apply Ha.
    erewrite bind_normal by reflexivity. split; [reflexivity|].
    split; [|done]. intros _. cbn. by rewrite lookup_total_insert_eq.
  - destruct (alloc_eq [] w) as [Ha Hfresh].
    set (w1 := set_heap _ w) in Ha.
    destruct (alloc_eq [] w1) as [Ha1 Hfresh1].
    do 3 eexists. erewrite bind_normal by apply Ha.
    erewrite bind_normal by apply Ha1. split; [reflexivity|].
    split; intros _; cbn [heap set_heap].
    + subst w1. cbn [heap set_heap] in *.
      rewrite lookup_total_insert_ne; [by rewrite lookup_total_insert_eq|].
      intros Heq. rewrite Heq, lookup_insert_eq in Hfresh1.
      discriminate Hfresh1.
    + by rewrite lookup_total_insert_eq.
Qed.

Lemma exposed_no_caller toRender ir name :
  (exposed [] toRender ir : gmap string (bridge_fn App)) !! ("m_" +:+ name)
  = None.
Proof.
  apply not_elem_of_dom. rewrite exposed_dom, elem_of_union.
  intros [H|H]; [by apply not_elem_of_empty in H|].
  apply elem_of_list_to_set, list_elem_of_fmap in H as (k & Heq & _).
  discriminate Heq.
Qed.

Lemma exposed_no_subscriber toMain ir name :
  (exposed toMain [] ir : gmap string (bridge_fn App)) !! ("r_" +:+ name)
  = None.
Proof.
  apply not_elem_of_dom. rewrite exposed_dom, elem_of_union.
  intros [H|H]; [|by apply not_elem_of_empty in H].
  apply elem_of_list_to_set, list_elem_of_fmap in H as (k & Heq & _).
  discriminate Heq.
Qed.

(** X6. A table left out of the props is an empty table for the life of
    the contract.  Without [toMain], [main.fromRenderer] registers nothing
    and calls no primitive, [renderer.toMain()] returns an object with no
    method, and [preload] exposes no [m_] entry; without [toRenderer],
    [main.toRenderer] returns an object with no method, [renderer.fromMain]
    returns normally even where no bridge is exposed, and [preload] exposes
    no [r_] entry.  This holds after any sequence of calls on the
    contract. *)
Theorem omitted_table_is_empty props (w : World App) :
  ∃ api w',
    createIpcApi props w = (Normal api, w') ∧
    (CreateIpcApiProps.toMain props = None →
     ∀ cs, let w2 := run_calls api cs w' in
       (∀ handlers ipcMain,
          api_main_fromRenderer api handlers ipcMain w2
          = (Normal VUndefined, w2)) ∧
       (∀ window, api_renderer_toMain api window w2 = (Normal ∅, w2)) ∧
       (∀ ipcRenderer contextBridge name,
          globals (api_preload api ipcRenderer contextBridge w2).2
            !! (contextBridge, CreateIpcApiProps.ipcKey props)
            ≫= (.!! ("m_" +:+ name)) = None)) ∧
    (CreateIpcApiProps.toRenderer props = None →
     ∀ cs, let w2 := run_calls api cs w' in
       (∀ window, api_main_toRenderer api window w2 = (Normal ∅, w2)) ∧
       (∀ window handlers,
          api_renderer_fromMain api window handlers w2
          = (Normal VUndefined, w2)) ∧
       (∀ ipcRenderer contextBridge name,
          globals (api_preload api ipcRenderer contextBridge w2).2
            !! (contextBridge, CreateIpcApiProps.ipcKey props)
            ≫= (.!! ("r_" +:+ name)) = None)).
Proof.
  destruct (createIpcApi_tables props w)
    as (toMain & toRender & w' & -> & Hm & Hr).
  set (key := CreateIpcApiProps.ipcKey props).
  do 2 eexists. split; [reflexivity|]. split.
  - intros Hnone cs. specialize (Hm Hnone). cbn zeta.
    destruct (continues_run_calls key toMain toRender cs w') as [Hheap _].
    set (w2 := run_calls _ cs w') in *.
    assert ((heap w2 !!! toMain : table) = []) as Ht by by rewrite Hheap.
    clearbody w2.
    cbn [surfaces api_main_fromRenderer api_renderer_toMain api_preload].
    split_and!.
    + intros handlers ipcMain. rewrite main_fromRenderer_eq, Ht. cbn.
      by rewrite set_host_id.
    + intros window. rewrite renderer_toMain_eq, Ht. done.
    + intros ir cb name. rewrite preload_eq, Ht. cbn [snd globals set_globals].
      rewrite lookup_insert_eq. apply exposed_no_caller.
  - intros Hnone cs. specialize (Hr Hnone). cbn zeta.
    destruct (continues_run_calls key toMain toRender cs w') as [Hheap _].
    set (w2 := run_calls _ cs w') in *.
    assert ((heap w2 !!! toRender : table) = []) as Ht by by rewrite Hheap.
    clearbody w2.
    cbn [surfaces api_main_toRenderer api_renderer_fromMain api_preload].
    split_and!.
    + intros window. rewrite main_toRenderer_eq, Ht. done.
    + intros window handlers. unfold renderer_fromMain.
      erewrite bind_normal by apply keys_at_eq. by rewrite Ht.
    + intros ir cb name. rewrite preload_eq, Ht. cbn [snd globals set_globals].
      rewrite lookup_insert_eq. apply exposed_no_subscriber.
Qed.

(** ** Several contracts in one process *)

(** X7. Two contracts with different namespace keys do not disturb each
    other on the bridge, even when they declare the same action names: the
    second [preload] leaves the first contract's namespace object as it
    was, and a name present in both tables is dispatched, under each key,
    on the tag its own table gives it. *)
Theorem contracts_with_distinct_keys_coexist
    ipcKey1 toMain1 toRender1 ipcKey2 toMain2 toRender2
    ipcRenderer contextBridge w :
  ipcKey1 ≠ ipcKey2 →
  let w1 :=
    (preload ipcKey1 toMain1 toRender1 ipcRenderer contextBridge w).2 in
  let w2 :=
    (preload ipcKey2 toMain2 toRender2 ipcRenderer contextBridge w1).2 in
  globals w2 !! (contextBridge, ipcKey1)
  = globals w1 !! (contextBridge, ipcKey1) ∧
  (∀ name d arg, get (heap w !!! toMain1) name = Some d →
     call_bridge ipcKey1 contextBridge ("m_" +:+ name) arg w2
     = if String.eqb (type d) "twoWay"
       then on_host (ipcRenderer_invoke ipcRenderer name arg) w2
       else on_host (ipcRenderer_send ipcRenderer name arg) w2) ∧
  (∀ name d arg, get (heap w !!! toMain2) name = Some d →
     call_bridge ipcKey2 contextBridge ("m_" +:+ name) arg w2
     = if String.eqb (type d) "twoWay"
       then on_host (ipcRenderer_invoke ipcRenderer name arg) w2
       else on_host (ipcRenderer_send ipcRenderer name arg) w2).
Proof.
  intros Hne w1 w2. subst w2 w1. rewrite !preload_eq.
  cbn [snd heap globals set_globals set_host].
  set (g := <[(contextBridge, ipcKey2) := _]> _).
  assert (g !! (contextBridge, ipcKey1)
          = Some (exposed (heap w !!! toMain1) (heap w !!! toRender1)
                    ipcRenderer)) as H1.
  { subst g. rewrite lookup_insert_ne by congruence. apply lookup_insert_eq. }
  assert (g !! (contextBridge, ipcKey2)
          = Some (exposed (heap w !!! toMain2) (heap w !!! toRender2)
                    ipcRenderer)) as H2.
  { subst g. apply lookup_insert_eq. }
  split_and!.
  - by rewrite H1, lookup_insert_eq.
  - intros name d arg Hd.
    erewrite call_bridge_exposed; [|exact H1|by eapply get_Some_key].
    unfold twoWay_key. by rewrite Hd.
  - intros name d arg Hd.
    erewrite call_bridge_exposed; [|exact H2|by eapply get_Some_key].
    unfold twoWay_key. by rewrite Hd.
Qed.

Lemma on_channel_app channel (reg1 reg2 : list (string * listener App)) :
  on_channel channel (reg1 ++ reg2)
  = on_channel channel reg1 ++ on_channel channel reg2.
Proof. unfold on_channel. by rewrite filter_app, fmap_app. Qed.

Lemma on_channel_fmap channel (g : string → listener App) keys :
  on_channel channel ((λ key, (key, g key)) <$> keys)
  = g <$> filter (λ key, key = channel) keys.
Proof.
  unfold on_channel. induction keys as [|key keys IH]; [done|].
  rewrite fmap_cons, !filter_cons. cbn [fst].
  destruct (decide (key = channel)); cbn [fmap list_fmap snd];
    by rewrite <-IH.
Qed.

Lemma filter_eq_absent (x : string) keys :
  x ∉ keys → filter (λ key, key = x) keys = [].
Proof.
  induction keys as [|key keys IH]; [done|].
  intros [Hne Hnot]%not_elem_of_cons. rewrite filter_cons.
  rewrite decide_False by done. by apply IH.
Qed.

Lemma filter_eq_NoDup (x : string) keys :
  NoDup keys → x ∈ keys → filter (λ key, key = x) keys = [x].
Proof.
  induction 1 as [|key keys Hnot Hnd IH]; [by intros ?%not_elem_of_nil|].
  rewrite filter_cons. intros [->|Hin]%elem_of_cons.
  - rewrite decide_True by done. f_equal. by apply filter_eq_absent.
  - rewrite decide_False by (by intros ->). by apply IH.
Qed.

Lemma fromRenderer_on_channel toMain (handlers : gmap string (handler App))
    ipcMain w name :
  let t := heap w !!! toMain in
  let after := (main_fromRenderer toMain handlers ipcMain w).2 in
  NoDup (Object_keys t) → name ∈ Object_keys t →
  twoWay_key t name = false →
  heap after = heap w ∧ app (host after) = app (host w) ∧
  on_channel name (ipcMain_listeners (host after))
  = on_channel name (ipcMain_listeners (host w))
    ++ [fromRenderer_listener handlers name].
Proof.
  intros t after Hnd Hin Htw. subst after. rewrite main_fromRenderer_eq.
  fold t. cbn [snd host heap set_host].
  destruct (fromRenderer_registered_eq handlers t (Object_keys t) (host w))
    as (Happ & _ & _ & -> & _).
  split; [done|]. split; [done|].
  rewrite on_channel_app, on_channel_fmap, list_filter_filter.
  f_equal.
  rewrite (list_filter_iff _ (λ key, key = name)).
  - by rewrite filter_eq_NoDup.
  - intros k. naive_solver.
Qed.

(** X8. Channels are not namespaced by the contract: the channel is the
    bare action name.  When two contracts declare the same one-way
    renderer-to-main name and both call [main.fromRenderer], both
    listeners are registered on that one channel, in the order of the
    calls, each calling its own contract's handler. *)
Theorem contracts_share_channels
    toMain1 toMain2 (handlers1 handlers2 : gmap string (handler App))
    ipcMain w name :
  let t1 := heap w !!! toMain1 in
  let t2 := heap w !!! toMain2 in
  NoDup (Object_keys t1) → NoDup (Object_keys t2) →
  name ∈ Object_keys t1 → name ∈ Object_keys t2 →
  twoWay_key t1 name = false → twoWay_key t2 name = false →
  let w1 := (main_fromRenderer toMain1 handlers1 ipcMain w).2 in
  let w2 := (main_fromRenderer toMain2 handlers2 ipcMain w1).2 in
  ∃ l1 l2 : listener App,
    on_channel name (ipcMain_listeners (host w2))
    = on_channel name (ipcMain_listeners (host w)) ++ [l1; l2] ∧
    (∀ f : handler App, handlers1 !! name = Some f →
       ∀ e arg a, l1 e arg a = match f arg e a with
                               | (Normal _, a') => (Normal VUndefined, a')
                               | (Throw err, a') => (Throw err, a')
                               end) ∧
    (∀ f : handler App, handlers2 !! name = Some f →
       ∀ e arg a, l2 e arg a = match f arg e a with
                               | (Normal _, a') => (Normal VUndefined, a')
                               | (Throw err, a') => (Throw err, a')
                               end).
Proof.
  intros t1 t2 Hnd1 Hnd2 Hin1 Hin2 Htw1 Htw2 w1 w2.
  destruct (fromRenderer_on_channel toMain1 handlers1 ipcMain w name)
    as (Hheap & _ & Hch1); [done..|].
  fold w1 in Hheap, Hch1.
  destruct (fromRenderer_on_channel toMain2 handlers2 ipcMain w1 name)
    as (_ & _ & Hch2); [by rewrite Hheap..|].
  fold w2 in Hch2. rewrite Hch2, Hch1, <-app_assoc.
  do 2 eexists. split; [done|].
  split; intros f Hf e arg a; by apply fromRenderer_listener_eq.
Qed.

(** ** Messages from end to end *)

Lemma ipcRenderer_send_single r channel arg h (l : listener App) :
  on_channel channel (ipcMain_listeners h) = [l] →
  ipcRenderer_send r channel arg h
  = (Normal VUndefined,
     set_app (l {| sender := r |} arg (app h)).2
       (log (ipcRenderer_send_call r channel arg) h)).
Proof.
  intros Hl. unfold ipcRenderer_send.
  erewrite bind_normal by reflexivity. erewrite bind_normal by reflexivity.
  cbn [ipcMain_listeners log]. rewrite Hl. cbn [emit].
  unfold bind at 1. rewrite run_app_eq. reflexivity.
Qed.

Lemma ipcRenderer_invoke_single r channel arg h (l : listener App) :
  on_channel channel (ipcMain_handlers h) = [l] →
  ipcRenderer_invoke r channel arg h
  = (Normal (VPromise (settle (l {| sender := r |} arg (app h)).1)),
     set_app (l {| sender := r |} arg (app h)).2
       (log (ipcRenderer_invoke_call r channel arg) h)).
Proof.
  intros Hl. unfold ipcRenderer_invoke.
  erewrite bind_normal by reflexivity. erewrite bind_normal by reflexivity.
  cbn [ipcMain_handlers log]. rewrite Hl.
  unfold bind. rewrite run_app_eq. cbn [emit]. unfold ret.
  by destruct (l _ arg _) as [c a].
Qed.

Lemma webContents_send_single window channel arg h (l : listener App) :
  window ∉ destroyed h →
  on_channel channel (of_renderer window (ipcRenderer_listeners h)) = [l] →
  webContents_send window channel arg h
  = (Normal VUndefined,
     set_app (l {| sender := window |} arg (app h)).2
       (log (webContents_send_call window channel arg) h)).
Proof.
  intros Hopen Hl. unfold webContents_send.
  erewrite bind_normal by reflexivity. erewrite bind_normal by reflexivity.
  cbn [destroyed log]. rewrite bool_decide_eq_false_2 by done.
  erewrite bind_normal by reflexivity.
  cbn [ipcRenderer_listeners log]. rewrite Hl. cbn [emit].
  unfold bind at 1. rewrite run_app_eq. reflexivity.
Qed.

Lemma fromMain_registered_destroyed (handlers : gmap string (callback App))
    r keys h :
  destroyed (fromMain_registered handlers r keys h) = destroyed h.
Proof.
  revert h. unfold fromMain_registered.
  induction keys as [|key keys IH]; intros h; [done|].
  cbn [foldl]. by rewrite IH.
Qed.

Lemma fromRenderer_on_channel_handle toMain
    (handlers : gmap string (handler App)) ipcMain w name :
  let t := heap w !!! toMain in
  let after := (main_fromRenderer toMain handlers ipcMain w).2 in
  NoDup (Object_keys t) → name ∈ Object_keys t →
  twoWay_key t name = true →
  heap after = heap w ∧ app (host after) = app (host w) ∧
  on_channel name (ipcMain_handlers (host after))
  = on_channel name (ipcMain_handlers (host w))
    ++ [fromRenderer_listener handlers name].
Proof.
  intros t after Hnd Hin Htw. subst after. rewrite main_fromRenderer_eq.
  fold t. cbn [snd host heap set_host].
  destruct (fromRenderer_registered_eq handlers t (Object_keys t) (host w))
    as (Happ & _ & -> & _ & _).
  split; [done|]. split; [done|].
  rewrite on_channel_app, on_channel_fmap, list_filter_filter.
  f_equal.
  rewrite (list_filter_iff _ (λ key, key = name)).
  - by rewrite filter_eq_NoDup.
  - intros k. naive_solver.
Qed.

(** X9. A one-way renderer-to-main message from end to end.  With the
    names of the table distinct and no earlier listener on the channel,
    after [main.fromRenderer] and [preload], calling the method
    [renderer.toMain()] has for a one-way entry runs that entry's handler
    exactly once, with the argument and the event of the sending renderer,
    and returns [undefined] whatever the handler returns or throws. *)
Theorem one_way_call_runs_handler_once
    ipcKey toMain toRender r (handlers : gmap string (handler App))
    ipcMain w0 name (f : handler App) :
  let t := heap w0 !!! toMain in
  NoDup (Object_keys t) → name ∈ Object_keys t →
  twoWay_key t name = false →
  handlers !! name = Some f →
  on_channel name (ipcMain_listeners (host w0)) = [] →
  let w1 := (main_fromRenderer toMain handlers ipcMain w0).2 in
  let w2 := (preload ipcKey toMain toRender r r w1).2 in
  ∀ arg,
    let after := call_bridge ipcKey r ("m_" +:+ name) arg w2 in
    after.1 = Normal VUndefined ∧
    app (host after.2) = (f arg {| sender := r |} (app (host w0))).2 ∧
    calls (host after.2)
    = calls (host w2) ++ [ipcRenderer_send_call r name arg].
Proof.
  intros t Hnd Hin Htw Hf Hold w1 w2 arg.
  destruct (fromRenderer_on_channel toMain handlers ipcMain w0 name)
    as (Hheap & Happ & Hch); [done..|].
  fold w1 in Hheap, Happ, Hch. rewrite Hold in Hch. cbn [app] in Hch.
  subst w2. rewrite preload_eq. cbn [snd]. cbn zeta.
  erewrite call_bridge_exposed;
    [|apply lookup_insert_eq|by rewrite Hheap].
  rewrite Hheap. fold t. rewrite Htw, on_host_eq.
  cbn [host set_globals set_host].
  erewrite ipcRenderer_send_single by exact Hch.
  cbn [fst snd host set_host app set_app log calls].
  rewrite Happ, (fromRenderer_listener_eq _ _ f) by done.
  split; [done|]. split; [|done].
  by destruct (f arg _ _) as [[v|err] a].
Qed.

(** X10. A two-way call from end to end, as the code has it.  With the
    names of the table distinct and no earlier handler on the channel,
    after [main.fromRenderer] and [preload], calling the method of a
    two-way entry runs that entry's handler exactly once, with the argument
    and the event of the calling renderer, and returns a promise: rejected
    with [err] when the handler throws [err], and fulfilled with
    [undefined] when the handler returns, because the registered listener
    drops the handler's value. *)
Theorem two_way_call_runs_handler_once
    ipcKey toMain toRender r (handlers : gmap string (handler App))
    ipcMain w0 name (f : handler App) :
  let t := heap w0 !!! toMain in
  NoDup (Object_keys t) → name ∈ Object_keys t →
  twoWay_key t name = true →
  handlers !! name = Some f →
  on_channel name (ipcMain_handlers (host w0)) = [] →
  let w1 := (main_fromRenderer toMain handlers ipcMain w0).2 in
  let w2 := (preload ipcKey toMain toRender r r w1).2 in
  ∀ arg,
    let after := call_bridge ipcKey r ("m_" +:+ name) arg w2 in
    let handled := f arg {| sender := r |} (app (host w0)) in
    after.1 = Normal (VPromise match handled.1 with
                               | Normal _ => Fulfilled VUndefined
                               | Throw err => Rejected err
                               end) ∧
    app (host after.2) = handled.2 ∧
    calls (host after.2)
    = calls (host w2) ++ [ipcRenderer_invoke_call r name arg].
Proof.
  intros t Hnd Hin Htw Hf Hold w1 w2 arg.
  destruct (fromRenderer_on_channel_handle toMain handlers ipcMain w0 name)
    as (Hheap & Happ & Hch); [done..|].
  fold w1 in Hheap, Happ, Hch. rewrite Hold in Hch. cbn [app] in Hch.
  subst w2. rewrite preload_eq. cbn [snd]. cbn zeta.
  erewrite call_bridge_exposed;
    [|apply lookup_insert_eq|by rewrite Hheap].
  rewrite Hheap. fold t. rewrite Htw, on_host_eq.
  cbn [host set_globals set_host].
  erewrite ipcRenderer_invoke_single by exact Hch.
  cbn [fst snd host set_host app set_app log calls].
  rewrite Happ, (fromRenderer_listener_eq _ _ f) by done.
  by destruct (f arg _ _) as [[v|err] a].
Qed.

Lemma of_renderer_app r (reg1 reg2 : list (wid * string * listener App)) :
  of_renderer r (reg1 ++ reg2) = of_renderer r reg1 ++ of_renderer r reg2.
Proof. unfold of_renderer. by rewrite filter_app, fmap_app. Qed.

Lemma of_renderer_fmap r r' (g : string → listener App) keys :
  of_renderer r' ((λ key, (r, key, g key)) <$> keys)
  = if decide (r = r') then (λ key, (key, g key)) <$> keys else [].
Proof.
  unfold of_renderer. destruct (decide (r = r')) as [Heq|Hne].
  all: induction keys as [|key keys IH]; [done|].
  all: rewrite fmap_cons, filter_cons; cbn [fst snd].
  - rewrite decide_True by done. cbn [fmap list_fmap fst snd]. by rewrite <-IH.
  - by rewrite decide_False.
Qed.

(** X11. A main-to-renderer message from end to end.  After [preload] and
    [renderer.fromMain] in the renderer of window [r], with the names of
    the table distinct, the listeners a push on channel [name] to window
    [r] reaches are the earlier ones followed by one that calls the entry's
    handler with the payload alone; a push to any other window reaches
    exactly the listeners it reached before.  With no earlier listener, no
    entry named [__proto__] and the window not destroyed, the sender
    [main.toRenderer({ window: r })] has for [name] runs the handler
    exactly once with the payload and returns [undefined]. *)
Theorem pushed_message_reaches_its_window
    ipcKey toMain toRender r (handlers : gmap string (callback App))
    w0 name (f : callback App) :
  let t := heap w0 !!! toRender in
  NoDup (Object_keys t) → name ∈ Object_keys t →
  handlers !! name = Some f →
  let w1 := (preload ipcKey toMain toRender r r w0).2 in
  let w2 := (renderer_fromMain ipcKey toRender r handlers w1).2 in
  let reached (window : wid) (w : World App) :=
    on_channel name (of_renderer window (ipcRenderer_listeners (host w))) in
  (∃ l : listener App,
     reached r w2 = reached r w0 ++ [l] ∧
     ∀ e arg a, l e arg a = f arg a) ∧
  (∀ window, window ≠ r → reached window w2 = reached window w0) ∧
  (reached r w0 = [] → "__proto__" ∉ Object_keys t →
   r ∉ destroyed (host w0) →
   ∃ send,
     (main_toRenderer toRender r w2).1 = Normal send ∧
     ∃ push, own send !! name = Some push ∧ send !! name = Some push ∧
       ∀ arg,
         (push arg (host w2)).1 = Normal VUndefined ∧
         app (push arg (host w2)).2 = (f arg (app (host w0))).2).
Proof.
  intros t Hnd Hin Hf w1 w2 reached.
  assert (host w2
          = fromMain_registered handlers r (Object_keys t) (host w1)
          ∧ heap w2 = heap w0) as [Hw2 Hheap].
  { subst w2 w1. rewrite preload_eq. cbn [snd].
    erewrite (renderer_fromMain_eq _ _ _ _ (heap w0 !!! toMain) r);
      [|apply lookup_insert_eq].
    done. }
  destruct (fromMain_registered_eq handlers r (Object_keys t) (host w1))
    as (Happ & _ & _ & Hl & _).
  rewrite <-Hw2 in Happ, Hl.
  assert (ipcRenderer_listeners (host w1) = ipcRenderer_listeners (host w0)
          ∧ app (host w1) = app (host w0)
          ∧ destroyed (host w1) = destroyed (host w0))
    as (Hl1 & Happ1 & Hd1).
  { subst w1. by rewrite preload_eq. }
  rewrite Hl1 in Hl. rewrite Happ1 in Happ.
  assert (∀ window,
    reached window w2
    = reached window w0
      ++ if decide (r = window)
         then [fromMain_listener (call_callback (handlers !! name))]
         else []) as Hreached.
  { intros window. unfold reached.
    rewrite Hl, of_renderer_app, on_channel_app, of_renderer_fmap.
    f_equal. destruct (decide (r = window)); [|done].
    by rewrite on_channel_fmap, filter_eq_NoDup. }
  split_and!.
  - eexists. split.
    + rewrite Hreached. by rewrite decide_True.
    + intros e arg a. unfold fromMain_listener, call_callback.
      unfold callback in *. by rewrite Hf.
  - intros window Hne. rewrite Hreached, decide_False by done.
    by rewrite app_nil_r.
  - intros Hold Hnot Hopen. rewrite main_toRenderer_eq, Hheap. fold t.
    rewrite senders_plain by done.
    assert (methods (toRenderer_method (App:=App) r) (Object_keys t)
              !! name = Some (toRenderer_method r name)) as Hown
      by by apply methods_lookup.
    eexists. split; [done|]. eexists.
    split; [exact Hown|]. split; [by apply JsObject_lookup_own|].
    intros arg. unfold toRenderer_method.
    specialize (Hreached r). rewrite Hold, decide_True in Hreached by done.
    erewrite webContents_send_single; [|..|exact Hreached].
    2: { by rewrite Hw2, fromMain_registered_destroyed, Hd1. }
    cbn [fst snd app set_app log]. rewrite Happ. split; [done|].
    unfold fromMain_listener, call_callback. unfold callback in *.
    by rewrite Hf.
Qed.

(** ** What the registration surfaces leave alone *)

(** X12. [main.fromRenderer] only registers: it runs no handler while
    registering, makes one registering call per entry of the table and no
    other transport call, and leaves the renderer-side listeners, the
    renderers' globals and the heap as they were. *)
Theorem fromRenderer_only_registers
    toMain (handlers : gmap string (handler App)) ipcMain w :
  let t := heap w !!! toMain in
  let after := (main_fromRenderer toMain handlers ipcMain w).2 in
  app (host after) = app (host w) ∧
  ipcRenderer_listeners (host after) = ipcRenderer_listeners (host w) ∧
  globals after = globals w ∧
  heap after = heap w ∧
  ∃ cs, calls (host after) = calls (host w) ++ cs ∧
        length cs = length t ∧
        Forall (λ c, ∃ name, name ∈ Object_keys t ∧
                       (c = ipcMain_handle_call name ∨
                        c = ipcMain_on_call name)) cs.
Proof.
  intros t after. subst after. rewrite main_fromRenderer_eq. fold t.
  cbn [snd host heap globals set_host].
  destruct (fromRenderer_registered_eq handlers t (Object_keys t) (host w))
    as (Happ & Hr & _ & _ & Hc).
  split_and!; try done. eexists. split; [exact Hc|]. split.
  - rewrite length_fmap. unfold Object_keys. by rewrite length_fmap.
  - apply Forall_fmap, Forall_forall. intros name Hin. exists name.
    split; [done|]. cbn. destruct (twoWay_key t name); auto.
Qed.

(** X13. Once the bridge is exposed, [renderer.fromMain] only subscribes:
    it runs no callback while subscribing, calls [ipcRenderer.on] once per
    entry of the table, in the order of its keys, on the unprefixed names
    and on the [ipcRenderer] given to [preload], and leaves the main-side
    registries, the globals and the heap as they were. *)
Theorem fromMain_only_subscribes
    ipcKey toMain toRender ipcRenderer contextBridge
    (handlers : gmap string (callback App)) w0 :
  let w := (preload ipcKey toMain toRender ipcRenderer contextBridge w0).2 in
  let after :=
    (renderer_fromMain ipcKey toRender contextBridge handlers w).2 in
  app (host after) = app (host w0) ∧
  ipcMain_handlers (host after) = ipcMain_handlers (host w0) ∧
  ipcMain_listeners (host after) = ipcMain_listeners (host w0) ∧
  globals after = globals w ∧
  heap after = heap w0 ∧
  calls (host after)
  = calls (host w)
    ++ (ipcRenderer_on_call ipcRenderer
          <$> Object_keys (heap w0 !!! toRender)).
Proof.
  intros w after. subst after w. rewrite preload_eq. cbn [snd].
  erewrite (renderer_fromMain_eq _ _ _ _ (heap w0 !!! toMain) ipcRenderer);
    [|apply lookup_insert_eq].
  cbn [snd host heap globals set_host set_globals].
  match goal with |- context [fromMain_registered ?hs ?r ?ks ?h] =>
    destruct (fromMain_registered_eq hs r ks h) as (-> & -> & -> & _ & ->)
  end.
  done.
Qed.

End More.

(** * The further properties on the README's application *)

Ltac by_deciding := apply (bool_decide_unpack _); vm_compute; exact I.

(** X1 where the handler of [fetchData] is forgotten, on a handler
    object that inherits nothing. *)
Lemma fromRenderer_registers_without_handler_witness :
  "fetchData" ∈ Object_keys (heap Readme.start !!! 0) ∧
  Readme.handlers_without_fetchData !! "fetchData" = None ∧
  (∅ : gmap string (handler Readme.Console)) !! "fetchData" = None ∧
  let after :=
    main_fromRenderer 0 (with_inherited Readme.handlers_without_fetchData ∅)
      () Readme.start in
  ∃ hs ls : list (string * listener Readme.Console),
    after.1 = Normal VUndefined ∧
    ipcMain_handlers (host after.2)
    = ipcMain_handlers (host Readme.start) ++ hs ∧
    ipcMain_listeners (host after.2)
    = ipcMain_listeners (host Readme.start) ++ ls ∧
    "fetchData" ∈ (hs ++ ls).*1 ∧
    ∀ l : listener Readme.Console, ("fetchData", l) ∈ hs ++ ls →
      ∀ e arg a, l e arg a = (Throw TypeError, a).
Proof.
  assert ("fetchData" ∈ Object_keys (heap Readme.start !!! 0)) as Hin
    by by_deciding.
  assert (Readme.handlers_without_fetchData !! "fetchData" = None) as Hnone
    by (vm_compute; reflexivity).
  assert ((∅ : gmap string (handler Readme.Console)) !! "fetchData" = None)
    as Hinherited by reflexivity.
  split; [exact Hin|]. split; [exact Hnone|]. split; [exact Hinherited|].
  exact (fromRenderer_registers_without_handler
           0 Readme.handlers_without_fetchData ∅ () Readme.start "fetchData"
           Hin Hnone Hinherited).
Defined.

(** X2 in the README's application before [preload] has run. *)
Lemma fromMain_throws_without_bridge_witness :
  globals Readme.start !! (Readme.win, "myIpc") = None ∧
  renderer_fromMain "myIpc" 1 Readme.win Readme.renderer_handlers Readme.start
  = (Throw TypeError, Readme.start).
Proof.
  assert (globals Readme.start !! (Readme.win, "myIpc") = None) as Hns
    by reflexivity.
  split; [exact Hns|].
  exact (fromMain_throws_without_bridge
           "myIpc" 1 Readme.win Readme.renderer_handlers Readme.start Hns).
Defined.

(** X3 where the renderer gives a handler object with nothing in it. *)
Lemma fromMain_registers_without_handler_witness :
  "notify" ∈ Object_keys (heap Readme.start !!! 1) ∧
  (∅ : gmap string (callback Readme.Console)) !! "notify" = None ∧
  let w := (preload "myIpc" 0 1 Readme.win Readme.win Readme.start).2 in
  let after :=
    renderer_fromMain "myIpc" 1 Readme.win (with_inherited ∅ ∅) w in
  ∃ ls : list (wid * string * listener Readme.Console),
    after.1 = Normal VUndefined ∧
    ipcRenderer_listeners (host after.2)
    = ipcRenderer_listeners (host w) ++ ls ∧
    length ls = length (heap Readme.start !!! 1 : table) ∧
    (Readme.win, "notify") ∈ ls.*1 ∧
    ∀ l : listener Readme.Console, (Readme.win, "notify", l) ∈ ls →
      ∀ e arg a, l e arg a = (Throw TypeError, a).
Proof.
  assert ("notify" ∈ Object_keys (heap Readme.start !!! 1)) as Hin
    by by_deciding.
  assert ((∅ : gmap string (callback Readme.Console)) !! "notify" = None)
    as Hnone by reflexivity.
  split; [exact Hin|]. split; [exact Hnone|].
  exact (fromMain_registers_without_handler
           "myIpc" 0 1 Readme.win Readme.win ∅ ∅ Readme.start "notify"
           Hin Hnone Hnone).
Defined.

(** X4 at the README's [logMessage]. *)
Lemma toMain_methods_bind_late_witness :
  ("__proto__" ∉ Object_keys (heap Readme.start !!! 0)) ∧
  get (heap Readme.start !!! 0) "logMessage" = Some (oneWayAction ()) ∧
  let w := (preload "myIpc" 0 1 Readme.win Readme.win Readme.start).2 in
  ∃ (api : JsObject (value → ST (World Readme.Console) value)) call,
    renderer_toMain "myIpc" 0 Readme.win Readme.start
    = (Normal api, Readme.start) ∧
    api !! "logMessage" = Some call ∧
    ∀ arg,
      call arg w = on_host (ipcRenderer_send Readme.win "logMessage" arg) w.
Proof.
  assert ("__proto__" ∉ Object_keys (heap Readme.start !!! 0)) as Hnot
    by by_deciding.
  assert (get (heap Readme.start !!! 0) "logMessage" = Some (oneWayAction ()))
    as Hget by (vm_compute; reflexivity).
  split; [exact Hnot|]. split; [exact Hget|]. intros w.
  destruct (toMain_methods_bind_late
              "myIpc" 0 1 Readme.win Readme.win Readme.start
              "logMessage" (oneWayAction ()) Hnot Hget)
    as (api & call & Hbefore & _ & _ & Hcall & Hbound).
  exists api, call. split; [exact Hbefore|]. split; [exact Hcall|].
  intros arg. exact (proj2 (Hbound arg w eq_refl) eq_refl).
Defined.

(** X6 for a contract declared with a namespace key only. *)
Lemma omitted_table_is_empty_witness :
  let props := {| CreateIpcApiProps.ipcKey := "bare";
                  CreateIpcApiProps.toMain := None;
                  CreateIpcApiProps.toRenderer := None |} in
  ∃ api w',
    createIpcApi props Readme.start = (Normal api, w') ∧
    api_main_fromRenderer api Readme.main_handlers () w'
    = (Normal VUndefined, w') ∧
    api_renderer_fromMain api Readme.win Readme.renderer_handlers w'
    = (Normal VUndefined, w').
Proof.
  intros props.
  destruct (omitted_table_is_empty props Readme.start)
    as (api & w' & Hcreate & Hm & Hr).
  exists api, w'. split; [exact Hcreate|]. split.
  - exact (proj1 (Hm eq_refl []) Readme.main_handlers ()).
  - exact (proj1 (proj2 (Hr eq_refl []))
             Readme.win Readme.renderer_handlers).
Defined.

(** X7 for the README's contract and a second one over the same tables. *)
Lemma contracts_with_distinct_keys_coexist_witness :
  "myIpc" ≠ "otherIpc" ∧
  let w1 := (preload "myIpc" 0 1 Readme.win Readme.win Readme.start).2 in
  let w2 := (preload "otherIpc" 0 1 Readme.win Readme.win w1).2 in
  globals w2 !! (Readme.win, "myIpc") = globals w1 !! (Readme.win, "myIpc").
Proof.
  assert ("myIpc" ≠ "otherIpc") as Hne by discriminate.
  split; [exact Hne|].
  exact (proj1 (contracts_with_distinct_keys_coexist
                  "myIpc" 0 1 "otherIpc" 0 1 Readme.win Readme.win
                  Readme.start Hne)).
Defined.

(** X8 for the two contracts that both declare [logMessage]. *)
Lemma contracts_share_channels_witness :
  let w := Readme.start_with_two_contracts in
  NoDup (Object_keys (heap w !!! 0)) ∧
  NoDup (Object_keys (heap w !!! 2)) ∧
  "logMessage" ∈ Object_keys (heap w !!! 0) ∧
  "logMessage" ∈ Object_keys (heap w !!! 2) ∧
  twoWay_key (heap w !!! 0) "logMessage" = false ∧
  twoWay_key (heap w !!! 2) "logMessage" = false ∧
  let w1 := (main_fromRenderer 0 Readme.main_handlers () w).2 in
  let w2 := (main_fromRenderer 2 Readme.other_handlers () w1).2 in
  ∃ l1 l2 : listener Readme.Console,
    on_channel "logMessage" (ipcMain_listeners (host w2))
    = on_channel "logMessage" (ipcMain_listeners (host w)) ++ [l1; l2].
Proof.
  intros w.
  assert (NoDup (Object_keys (heap w !!! 0))) as Hnd1 by by_deciding.
  assert (NoDup (Object_keys (heap w !!! 2))) as Hnd2 by by_deciding.
  assert ("logMessage" ∈ Object_keys (heap w !!! 0)) as Hin1 by by_deciding.
  assert ("logMessage" ∈ Object_keys (heap w !!! 2)) as Hin2 by by_deciding.
  assert (twoWay_key (heap w !!! 0) "logMessage" = false) as Htw1
    by (vm_compute; reflexivity).
  assert (twoWay_key (heap w !!! 2) "logMessage" = false) as Htw2
    by (vm_compute; reflexivity).
  split_and!; [done..|]. intros w1 w2.
  destruct (contracts_share_channels
              0 2 Readme.main_handlers Readme.other_handlers () w
              "logMessage" Hnd1 Hnd2 Hin1 Hin2 Htw1 Htw2)
    as (l1 & l2 & Hch & _).
  exists l1, l2. exact Hch.
Defined.

(** X9 at the README's [logMessage]. *)
Lemma one_way_call_runs_handler_once_witness :
  let f : handler Readme.Console :=
    default (λ _ _, ret VUndefined) (Readme.main_handlers !! "logMessage") in
  let w0 := Readme.start in
  NoDup (Object_keys (heap w0 !!! 0)) ∧
  "logMessage" ∈ Object_keys (heap w0 !!! 0) ∧
  twoWay_key (heap w0 !!! 0) "logMessage" = false ∧
  Readme.main_handlers !! "logMessage" = Some f ∧
  on_channel "logMessage" (ipcMain_listeners (host w0)) = [] ∧
  let w1 := (main_fromRenderer 0 Readme.main_handlers () w0).2 in
  let w2 := (preload "myIpc" 0 1 Readme.win Readme.win w1).2 in
  let after :=
    call_bridge "myIpc" Readme.win "m_logMessage" (VStr "Hello main!") w2 in
  after.1 = Normal VUndefined ∧
  app (host after.2)
  = (f (VStr "Hello main!") {| sender := Readme.win |} (app (host w0))).2.
Proof.
  intros f w0.
  assert (NoDup (Object_keys (heap w0 !!! 0))) as Hnd by by_deciding.
  assert ("logMessage" ∈ Object_keys (heap w0 !!! 0)) as Hin by by_deciding.
  assert (twoWay_key (heap w0 !!! 0) "logMessage" = false) as Htw
    by (vm_compute; reflexivity).
  assert (Readme.main_handlers !! "logMessage" = Some f) as Hf
    by (vm_compute; reflexivity).
  assert (on_channel "logMessage" (ipcMain_listeners (host w0)) = [])
    as Hold by (vm_compute; reflexivity).
  split_and!; [done..|]. intros w1 w2 after.
  destruct (one_way_call_runs_handler_once
              "myIpc" 0 1 Readme.win Readme.main_handlers () w0
              "logMessage" f Hnd Hin Htw Hf Hold (VStr "Hello main!"))
    as (Hres & Happ & _).
  split; [exact Hres|exact Happ].
Defined.

(** X10 at the README's [fetchData]. *)
Lemma two_way_call_runs_handler_once_witness :
  let f : handler Readme.Console :=
    default (λ _ _, ret VUndefined) (Readme.main_handlers !! "fetchData") in
  let w0 := Readme.start in
  NoDup (Object_keys (heap w0 !!! 0)) ∧
  "fetchData" ∈ Object_keys (heap w0 !!! 0) ∧
  twoWay_key (heap w0 !!! 0) "fetchData" = true ∧
  Readme.main_handlers !! "fetchData" = Some f ∧
  on_channel "fetchData" (ipcMain_handlers (host w0)) = [] ∧
  let w1 := (main_fromRenderer 0 Readme.main_handlers () w0).2 in
  let w2 := (preload "myIpc" 0 1 Readme.win Readme.win w1).2 in
  let request := VObj [("id", VNum 42)] in
  let after := call_bridge "myIpc" Readme.win "m_fetchData" request w2 in
  let handled := f request {| sender := Readme.win |} (app (host w0)) in
  after.1 = Normal (VPromise match handled.1 with
                             | Normal _ => Fulfilled VUndefined
                             | Throw err => Rejected err
                             end).
Proof.
  intros f w0.
  assert (NoDup (Object_keys (heap w0 !!! 0))) as Hnd by by_deciding.
  assert ("fetchData" ∈ Object_keys (heap w0 !!! 0)) as Hin by by_deciding.
  assert (twoWay_key (heap w0 !!! 0) "fetchData" = true) as Htw
    by (vm_compute; reflexivity).
  assert (Readme.main_handlers !! "fetchData" = Some f) as Hf
    by (vm_compute; reflexivity).
  assert (on_channel "fetchData" (ipcMain_handlers (host w0)) = [])
    as Hold by (vm_compute; reflexivity).
  split_and!; [done..|]. intros w1 w2 request after handled.
  exact (proj1 (two_way_call_runs_handler_once
                  "myIpc" 0 1 Readme.win Readme.main_handlers () w0
                  "fetchData" f Hnd Hin Htw Hf Hold request)).
Defined.

(** X11 at the README's [notify]. *)
Lemma pushed_message_reaches_its_window_witness :
  let f : callback Readme.Console :=
    default (λ _, ret VUndefined) (Readme.renderer_handlers !! "notify") in
  let w0 := Readme.start in
  NoDup (Object_keys (heap w0 !!! 1)) ∧
  "notify" ∈ Object_keys (heap w0 !!! 1) ∧
  Readme.renderer_handlers !! "notify" = Some f ∧
  let w1 := (preload "myIpc" 0 1 Readme.win Readme.win w0).2 in
  let w2 :=
    (renderer_fromMain "myIpc" 1 Readme.win Readme.renderer_handlers w1).2 in
  ∀ window, window ≠ Readme.win →
    on_channel "notify"
      (of_renderer window (ipcRenderer_listeners (host w2)))
    = on_channel "notify"
        (of_renderer window (ipcRenderer_listeners (host w0))).
Proof.
  intros f w0.
  assert (NoDup (Object_keys (heap w0 !!! 1))) as Hnd by by_deciding.
  assert ("notify" ∈ Object_keys (heap w0 !!! 1)) as Hin by by_deciding.
  assert (Readme.renderer_handlers !! "notify" = Some f) as Hf
    by (vm_compute; reflexivity).
  split_and!; [done..|]. intros w1 w2.
  exact (proj1 (proj2 (pushed_message_reaches_its_window
                         "myIpc" 0 1 Readme.win Readme.renderer_handlers w0
                         "notify" f Hnd Hin Hf))).
Defined.
